(** * Artifact eviction action: the eviction decision engine

    A shallow embedding of [src/lib.ts] (statistics, oldest-first selection,
    cleanup accounting) and of the orchestration in [src/index.ts]
    ([deleteArtifact], [deleteArtifacts], [performCleanup]), followed by the
    properties the specification states about them.  The embedding also
    covers [formatGB], [parseConfig], [fetchAllArtifacts], [setOutputs],
    [writeJobSummary] and [main], with further properties read off the code.

    Conventions of the embedding.
    - A JavaScript [number] holding a byte count, an artifact id, a length or
      a millisecond timestamp is an integer, modelled as [Z]; IEEE doubles
      are exact on the integers of magnitude below 2^53 that occur here.
    - A [number] holding gigabytes ([maxSizeGB], [totalSizeGB], ...) is a
      rational, modelled as [Q]: a double is a dyadic rational and scaling
      by 1024^3 is exact.
    - [created_at] is the provider's ISO-8601 date-time or [null]; a date is
      represented by the instant it denotes, in milliseconds since the epoch,
      which is what [new Date(s).getTime()] returns for it.  Strings that do
      not denote a date are outside the model.
    - Console logging ([core.info], [core.warning]) has no influence on any
      value and is left out.
    - Built-ins of the language are modelled after the language standard
      ([Array.prototype.sort], [String.prototype.split],
      [Number.prototype.toFixed], [Number.prototype.toString]) or taken as
      an interface of the host ([parseFloat]). *)

From Stdlib Require Import ZArith QArith Qround Qabs Lia Lqa Permutation Ascii.
From stdpp Require Import base option list gmap sets strings sorting.

Local Open Scope Z_scope.

(* The solvers of stdpp clear hypotheses that may already be gone. *)
Set Warnings "-clear-no-such-hyp".

(** ** Data model ([src/lib.ts], lines 8-43) *)

Record Artifact := {
  id : Z;
  name : string;
  size_in_bytes : Z;
  created_at : option Z
}.

Record Config := {
  owner : string;
  repo : string;
  maxSizeGB : Q;
  token : string;
  dryRun : bool
}.

Record ArtifactStats := {
  totalCount : Z;
  totalSizeBytes : Z;
  totalSizeGB : Q
}.

Record DeletionResult := {
  artifact : Artifact;
  success : bool;
  error : option string
}.

Record CleanupSummary := {
  initial : ArtifactStats;
  deletedCount : Z;
  freedBytes : Z;
  freedGB : Q;
  finalSizeBytes : Z;
  finalSizeGB : Q;
  failures : list DeletionResult;
  retained : list Artifact
}.

(** [Result<T, Error>]: the error carries its message. *)
Inductive Result (T : Type) : Type :=
| Ok (value : T)
| Err (message : string).

Arguments Ok {T} value.
Arguments Err {T} message.

(** ** The library ([src/lib.ts]) *)

Definition bytesToGB (bytes : Z) : Q := (inject_Z bytes / inject_Z (1024 ^ 3))%Q.

(** The decimal digits of a natural number, most significant first; the
    number of bits bounds the number of digits. *)
Definition digitChar (d : Z) : ascii := ascii_of_nat (Z.to_nat (48 + d)).

Fixpoint decimal_fuel (fuel : nat) (n : Z) (acc : list ascii) : list ascii :=
  match fuel with
  | O => acc
  | S fuel' =>
      let acc' := digitChar (n mod 10) :: acc in
      if n / 10 =? 0 then acc' else decimal_fuel fuel' (n / 10) acc'
  end.

Definition decimalDigits (n : Z) : list ascii :=
  decimal_fuel (S (Z.to_nat (Z.log2 n))) n [].

(** [n.toString()] for an integer [n]. *)
Definition Number_toString (n : Z) : string :=
  if n <? 0 then String.string_of_list_ascii ("-"%char :: decimalDigits (- n))
  else String.string_of_list_ascii (decimalDigits n).

(** [x.toFixed(fractionDigits)], after the steps of the language standard
    for a finite [x] below 10^21: the sign is split off; [n] is the integer
    for which [n / 10^f] is closest to [x], the larger one on a tie; its
    digits are padded with zeros to [f + 1] places and the point is put
    before the last [f]. *)
Definition Number_toFixed (x : Q) (fractionDigits : nat) : string :=
  let s := if Qle_bool 0 x then [] else ["-"%char] in
  let x := Qabs x in
  let n := Qfloor (x * inject_Z (10 ^ Z.of_nat fractionDigits) + (1 # 2))%Q in
  let m := decimalDigits n in
  let m :=
    match fractionDigits with
    | O => m
    | S _ =>
        let k := length m in
        let m := if (k <=? fractionDigits)%nat
                 then replicate (fractionDigits + 1 - k) "0"%char ++ m else m in
        let k := length m in
        let a := take (k - fractionDigits) m in
        let b := drop (k - fractionDigits) m in
        a ++ "."%char :: b
    end in
  String.string_of_list_ascii (s ++ m).

Definition formatGB (gb : Q) : string := Number_toFixed gb 2.

Definition calculateTotalSize (artifacts : list Artifact) : Z :=
  fold_left (fun sum artifact => sum + size_in_bytes artifact) artifacts 0.

Definition calculateStats (artifacts : list Artifact) : ArtifactStats :=
  let totalSizeBytes := calculateTotalSize artifacts in
  {| totalCount := Z.of_nat (length artifacts);
     totalSizeBytes := totalSizeBytes;
     totalSizeGB := bytesToGB totalSizeBytes |}.

Definition isOverLimit (sizeBytes maxSizeBytes : Z) : bool :=
  sizeBytes >? maxSizeBytes.

(** [Array.prototype.sort(compareFn)].  The language standard requires the
    sort to be stable; for a consistent comparator the result is therefore
    determined, and it is computed here by stable insertion: an element goes
    in front of the first later element it does not exceed. *)
Fixpoint sort_insert {A : Type} (compareFn : A -> A -> Z) (x : A) (l : list A) : list A :=
  match l with
  | [] => [x]
  | y :: l' =>
      if compareFn x y <=? 0 then x :: y :: l' else y :: sort_insert compareFn x l'
  end.

Definition Array_sort {A : Type} (compareFn : A -> A -> Z) (l : list A) : list A :=
  fold_right (sort_insert compareFn) [] l.

(** [new Date(created_at ?? 0).getTime()] *)
Definition getTime (created_at : option Z) : Z :=
  match created_at with
  | Some t => t
  | None => 0
  end.

Definition compareCreated (a b : Artifact) : Z :=
  let aTime := getTime (created_at a) in
  let bTime := getTime (created_at b) in
  aTime - bTime.

(** The value of [sortByCreatedDate]: the sorted copy. *)
Definition sortByCreatedDate (artifacts : list Artifact) : list Artifact :=
  Array_sort compareCreated artifacts.

(** [calculateAge], with the clock reading [now] made explicit. *)
Definition calculateAge (createdAt : option Z) (now : Z) : Z :=
  let createdTime := getTime createdAt in
  (now - createdTime) / (1000 * 60 * 60 * 24).

(** The [for ... of] loop of [selectArtifactsToDelete]; [toDelete] and
    [remainingSize] are its two mutable variables. *)
Fixpoint select_loop (maxSize : Z) (sorted : list Artifact)
    (toDelete : list Artifact) (remainingSize : Z) : list Artifact :=
  match sorted with
  | [] => toDelete
  | artifact :: rest =>
      if remainingSize <=? maxSize then toDelete
      else select_loop maxSize rest (toDelete ++ [artifact])
             (remainingSize - size_in_bytes artifact)
  end.

Definition selectArtifactsToDelete (artifacts : list Artifact)
    (currentSize maxSize : Z) : list Artifact :=
  if currentSize <=? maxSize then []
  else
    let sorted := sortByCreatedDate artifacts in
    select_loop maxSize sorted [] currentSize.

Definition createCleanupSummary (initial : ArtifactStats)
    (results : list DeletionResult) (retained : list Artifact) : CleanupSummary :=
  let successful := List.filter (fun r => success r) results in
  let failures := List.filter (fun r => negb (success r)) results in
  let freedBytes :=
    fold_left (fun sum result => sum + size_in_bytes (artifact result)) successful 0 in
  {| initial := initial;
     deletedCount := Z.of_nat (length successful);
     freedBytes := freedBytes;
     freedGB := bytesToGB freedBytes;
     finalSizeBytes := totalSizeBytes initial - freedBytes;
     finalSizeGB := bytesToGB (totalSizeBytes initial - freedBytes);
     failures := failures;
     retained := retained |}.

(** ** Arrays as heap objects

    [sortByCreatedDate] is [[...artifacts].sort(compareFn)]: the spread
    allocates a fresh array holding the same elements, and
    [Array.prototype.sort] then sorts that array in place and returns it.
    The caller's array is a different heap object.  The heap maps array
    references to their contents. *)

Abbreviation Heap := (gmap nat (list Artifact)).

Definition Array_spread (r : nat) (h : Heap) : option (nat * Heap) :=
  match h !! r with
  | Some l => let r' := fresh (dom h) in Some (r', <[r' := l]> h)
  | None => None
  end.

Definition Array_sort_inplace (compareFn : Artifact -> Artifact -> Z)
    (r : nat) (h : Heap) : option (nat * Heap) :=
  match h !! r with
  | Some l => Some (r, <[r := Array_sort compareFn l]> h)
  | None => None
  end.

Definition sortByCreatedDate_heap (artifacts : nat) (h : Heap) : option (nat * Heap) :=
  match Array_spread artifacts h with
  | Some (copy, h1) => Array_sort_inplace compareCreated copy h1
  | None => None
  end.

(** ** The orchestrator ([src/index.ts]) *)

(** The remote provider.  [deleteArtifact_request] stands for the body of the
    [try] block of [deleteArtifact] after the dry-run test: building the
    client from the token and awaiting the DELETE call.  It answers [None]
    when the call resolves and [Some message] when anything in the block
    throws, [message] being what the [catch] clause extracts. *)
Class Octokit (Server : Type) := {
  deleteArtifact_request :
    string -> string -> string -> Z -> Server -> Server * option string
}.

(** The state of the world a run acts on: the provider, and the ids of the
    artifacts for which a DELETE call has been issued, oldest call first. *)
Record World (Server : Type) := {
  server : Server;
  requests : list Z
}.

Arguments server {Server} _.
Arguments requests {Server} _.

(** [config.maxSizeGB * 1024 ** 3], the limit in bytes; it need not be whole.
    Every size compared with it is whole, so the comparisons are made with
    the limit rounded down ([isOverLimit_floor] below shows they agree). *)
Definition limitBytes (config : Config) : Q :=
  (maxSizeGB config * inject_Z (1024 ^ 3))%Q.

Definition maxSizeBytes_of (config : Config) : Z := Qfloor (limitBytes config).

Definition noArtifactsError : string :=
  "No artifacts to delete, but still over limit. This should not happen.".

Section Orchestrator.
Context {Server : Type} `{!Octokit Server}.

Definition deleteArtifact (config : Config) (artifact : Artifact)
    (w : World Server) : World Server * DeletionResult :=
  if dryRun config then
    (w, {| artifact := artifact; success := true; error := None |})
  else
    let '(s', response) :=
      deleteArtifact_request (token config) (owner config) (repo config)
        (id artifact) (server w) in
    let w' := {| server := s'; requests := requests w ++ [id artifact] |} in
    match response with
    | None => (w', {| artifact := artifact; success := true; error := None |})
    | Some errorMessage =>
        (w', {| artifact := artifact; success := false; error := Some errorMessage |})
    end.

(** [Promise.all(artifacts.map(...))]: the calls are issued in list order
    and the outcomes are collected by position. *)
Fixpoint deleteArtifacts (config : Config) (artifacts : list Artifact)
    (w : World Server) : World Server * list DeletionResult :=
  match artifacts with
  | [] => (w, [])
  | artifact :: rest =>
      let '(w1, result) := deleteArtifact config artifact w in
      let '(w2, results) := deleteArtifacts config rest w1 in
      (w2, result :: results)
  end.

Definition performCleanup (config : Config) (artifacts : list Artifact)
    (w : World Server) : World Server * Result CleanupSummary :=
  let initialStats := calculateStats artifacts in
  let maxSizeBytes := maxSizeBytes_of config in
  if negb (isOverLimit (totalSizeBytes initialStats) maxSizeBytes) then
    (w, Ok {| initial := initialStats;
              deletedCount := 0;
              freedBytes := 0;
              freedGB := 0%Q;
              finalSizeBytes := totalSizeBytes initialStats;
              finalSizeGB := totalSizeGB initialStats;
              failures := [];
              retained := artifacts |})
  else
    let toDelete :=
      selectArtifactsToDelete artifacts (totalSizeBytes initialStats) maxSizeBytes in
    if (length toDelete =? 0)%nat then (w, Err noArtifactsError)
    else
      let '(w', results) := deleteArtifacts config toDelete w in
      let toDeleteIds : gset Z := list_to_set (map id toDelete) in
      let retained :=
        List.filter (fun a => negb (bool_decide (id a ∈ toDeleteIds))) artifacts in
      let summary := createCleanupSummary initialStats results retained in
      (w', Ok summary).

(** The [results] array of [performCleanup] (line 308): the outcomes of the
    deletions a run attempts; none when the run stops before that line. *)
Definition cleanupResults (config : Config) (artifacts : list Artifact)
    (w : World Server) : list DeletionResult :=
  let initialStats := calculateStats artifacts in
  let maxSizeBytes := maxSizeBytes_of config in
  if negb (isOverLimit (totalSizeBytes initialStats) maxSizeBytes) then []
  else
    let toDelete :=
      selectArtifactsToDelete artifacts (totalSizeBytes initialStats) maxSizeBytes in
    (deleteArtifacts config toDelete w).2.

End Orchestrator.

(** ** Configuration, inventory and the whole run ([src/index.ts])

    What the process reads from its surroundings: [getInput name] is the
    value of [core.getInput(name)] (the trimmed input, empty when the input
    is absent) and [processEnv name] is [process.env[name]]. *)
Record Environment := {
  getInput : string -> string;
  processEnv : string -> option string
}.

(** The host's [parseFloat].  [None] stands for [NaN]; a finite result is
    the rational the returned number holds.  The infinite results are not
    represented. *)
Class Runtime := {
  parseFloat : string -> option Q
}.

(** [s.split(sep)] for a one-character separator. *)
Fixpoint String_split (sep : ascii) (s : string) : list string :=
  match s with
  | EmptyString => [EmptyString]
  | String c s' =>
      if Ascii.eqb c sep then EmptyString :: String_split sep s'
      else
        match String_split sep s' with
        | [] => [String c EmptyString]
        | part :: parts => String c part :: parts
        end
  end.

(** [a || b] for a string [a] and a possibly undefined string [b]. *)
Definition orElse (a : string) (b : option string) : option string :=
  match a with
  | EmptyString => b
  | String _ _ => Some a
  end.

Definition noTokenError : string :=
  "No token provided. Set the 'token' input or ensure GITHUB_TOKEN is available.".

Definition parseConfig `{!Runtime} (e : Environment) : Result Config :=
  let token := orElse (getInput e "token") (processEnv e "GITHUB_TOKEN") in
  match token with
  | Some (String _ _ as token) =>
      let repository := processEnv e "GITHUB_REPOSITORY" in
      let maxSizeGBInput := getInput e "max_size_gb" in
      let dryRunInput := getInput e "dry_run" in
      match repository with
      | Some (String _ _ as repository) =>
          let parts := String_split "/" repository in
          match parts !! 0%nat, parts !! 1%nat with
          | Some (String _ _ as owner), Some (String _ _ as repo) =>
              match parseFloat maxSizeGBInput with
              | Some maxSizeGB =>
                  if Qle_bool maxSizeGB 0 then Err "Invalid max_size_gb value"
                  else
                    let dryRun := String.eqb dryRunInput "true" in
                    Ok {| owner := owner; repo := repo; maxSizeGB := maxSizeGB;
                          token := token; dryRun := dryRun |}
              | None => Err "Invalid max_size_gb value"
              end
          | _, _ => Err "Invalid GITHUB_REPOSITORY format"
          end
      | _ => Err "GITHUB_REPOSITORY is not set"
      end
  | _ => Err noTokenError
  end.

(** The inventory side of the provider: [listArtifacts_request] stands for
    the body of the [try] block of [fetchAllArtifacts], the paginated listing
    of all artifacts of the repository; it answers with the list, or with the
    message of what was thrown. *)
Class OctokitList (Server : Type) := {
  listArtifacts_request :
    string -> string -> string -> Server -> Server * Result (list Artifact)
}.

(** The job summary page: heading, table rows and closing text. *)
Record JobSummary := {
  heading : string;
  table : list (list string);
  raw : string
}.

(** What a whole run leaves behind: the world, the action outputs set, the
    job summary written, and the value [main] resolves with. *)
Record Outcome (Server : Type) := {
  world : World Server;
  outputs : list (string * string);
  jobSummary : option JobSummary;
  result : Result unit
}.

Arguments world {Server} _.
Arguments outputs {Server} _.
Arguments jobSummary {Server} _.
Arguments result {Server} _.

Definition setOutputs (summary : CleanupSummary) (wasOverLimit : bool) :
    list (string * string) :=
  [ ("deleted_count", Number_toString (deletedCount summary));
    ("freed_gb", formatGB (freedGB summary));
    ("final_size_gb", formatGB (finalSizeGB summary));
    ("was_over_limit", if wasOverLimit then "true" else "false") ].

Definition writeJobSummary (summary : CleanupSummary) (config : Config)
    (wasOverLimit : bool) : JobSummary :=
  let statusIcon :=
    if Qle_bool (inject_Z (finalSizeBytes summary)) (limitBytes config)
    then "✅" else "⚠️" in
  let modeLabel := if dryRun config then " (Dry Run)" else "" in
  {| heading := "Artifact Eviction" +:+ modeLabel;
     table :=
       [ ["Metric"; "Value"];
         ["Storage Limit"; formatGB (maxSizeGB config) +:+ " GB"];
         ["Initial Size"; formatGB (totalSizeGB (initial summary)) +:+ " GB"];
         ["Artifacts Deleted"; Number_toString (deletedCount summary)];
         ["Space Freed"; formatGB (freedGB summary) +:+ " GB"];
         ["Final Size"; statusIcon +:+ " " +:+ formatGB (finalSizeGB summary) +:+ " GB"] ];
     raw :=
       if wasOverLimit then
         if deletedCount summary >? 0 then
           "Deleted " +:+ Number_toString (deletedCount summary)
           +:+ " artifact(s) to free " +:+ formatGB (freedGB summary) +:+ " GB."
         else "Storage was over limit but no artifacts could be deleted."
       else "Storage was already under the limit. No cleanup needed." |}.

Section Main.
Context {Server : Type} `{!Octokit Server} `{!OctokitList Server} `{!Runtime}.

Definition fetchAllArtifacts (config : Config) (w : World Server) :
    World Server * Result (list Artifact) :=
  let '(s', answer) :=
    listArtifacts_request (token config) (owner config) (repo config) (server w) in
  ({| server := s'; requests := requests w |}, answer).

(** [main].  The job summary file is taken to be writable, so that
    [writeJobSummary] does not throw. *)
Definition main (e : Environment) (w : World Server) : Outcome Server :=
  match parseConfig e with
  | Err message =>
      {| world := w; outputs := []; jobSummary := None; result := Err message |}
  | Ok config =>
      match fetchAllArtifacts config w with
      | (w1, Err message) =>
          {| world := w1; outputs := []; jobSummary := None; result := Err message |}
      | (w1, Ok artifacts) =>
          let initialStats := calculateStats artifacts in
          let maxSizeBytes := maxSizeBytes_of config in
          let wasOverLimit := isOverLimit (totalSizeBytes initialStats) maxSizeBytes in
          match performCleanup config artifacts w1 with
          | (w2, Err message) =>
              {| world := w2; outputs := []; jobSummary := None;
                 result := Err message |}
          | (w2, Ok summary) =>
              {| world := w2;
                 outputs := setOutputs summary wasOverLimit;
                 jobSummary := Some (writeJobSummary summary config wasOverLimit);
                 result := Ok tt |}
          end
      end
  end.

(** The exit code of the process: [process.exit(1)] when [main] resolves
    with an error. *)
Definition exitCode (r : Result unit) : Z :=
  match r with
  | Ok _ => 0
  | Err _ => 1
  end.

End Main.

(** * The vocabulary of the statements *)

(** ** Sums written as plain recursions

    The source accumulates with [reduce]; the statements below speak of sums
    and counts, which are given here by structural recursion and related to
    the folds once and for all. *)

Fixpoint sum_sizes (l : list Artifact) : Z :=
  match l with
  | [] => 0
  | a :: l' => size_in_bytes a + sum_sizes l'
  end.

Fixpoint count_successes (results : list DeletionResult) : nat :=
  match results with
  | [] => O
  | r :: rest => if success r then S (count_successes rest) else count_successes rest
  end.

Fixpoint freed_by (results : list DeletionResult) : Z :=
  match results with
  | [] => 0
  | r :: rest =>
      if success r then size_in_bytes (artifact r) + freed_by rest else freed_by rest
  end.

(** The order the sort establishes, for elements compared by a key. *)
Definition key_le {A : Type} (key : A -> Z) (x y : A) : Prop := key x <= key y.

(** The sort key of an artifact. *)
Definition createdTime (a : Artifact) : Z := getTime (created_at a).

(** Removing [P] brings the usage [currentSize] to the limit or below. *)
Definition brings_within (currentSize maxSize : Z) (P : list Artifact) : Prop :=
  currentSize - calculateTotalSize P <= maxSize.

(** [P] is the shortest prefix of [sorted] whose removal suffices. *)
Definition shortest_sufficient_prefix (currentSize maxSize : Z)
    (sorted P : list Artifact) : Prop :=
  P `prefix_of` sorted
  /\ brings_within currentSize maxSize P
  /\ forall P', P' `prefix_of` sorted -> (length P' < length P)%nat ->
       ~ brings_within currentSize maxSize P'.

(** The selector's contract as the specification words it, for all inputs. *)
Definition selects_shortest_prefix (artifacts : list Artifact)
    (currentSize maxSize : Z) : Prop :=
  (currentSize <= maxSize -> selectArtifactsToDelete artifacts currentSize maxSize = [])
  /\ (maxSize < currentSize ->
      shortest_sufficient_prefix currentSize maxSize (sortByCreatedDate artifacts)
        (selectArtifactsToDelete artifacts currentSize maxSize)).

(** The artifact with a missing creation date replaced by the epoch. *)
Definition atEpoch (a : Artifact) : Artifact :=
  match created_at a with
  | Some _ => a
  | None =>
      {| id := id a; name := name a; size_in_bytes := size_in_bytes a;
         created_at := Some 0 |}
  end.

(** The set of ids of a list of artifacts, and the ids of the outcomes of
    either kind. *)
Definition ids (l : list Artifact) : gset Z := list_to_set (map id l).

Definition succeeded_ids (results : list DeletionResult) : gset Z :=
  ids (map artifact (List.filter (fun r => success r) results)).

Definition failed_ids (results : list DeletionResult) : gset Z :=
  ids (map artifact (List.filter (fun r => negb (success r)) results)).

(** The invariant as the specification words it: of every run that ends with
    a summary, the retained ids and the ids deleted with success are
    disjoint and together are the ids of the fetched list. *)
Definition retained_and_deleted_partition {Server : Type} `{!Octokit Server}
    (config : Config) (artifacts : list Artifact) (w : World Server) : Prop :=
  forall w' summary,
    performCleanup config artifacts w = (w', Ok summary) ->
    ids (retained summary) ∪ succeeded_ids (cleanupResults config artifacts w)
    = ids artifacts
    /\ ids (retained summary) ## succeeded_ids (cleanupResults config artifacts w).

(** ** Sample data

    The artifacts of the repository's test suite: size 100 each, created on
    the first of January, February and March 2024 (UTC, in milliseconds),
    and one artifact without a creation date. *)

Definition jan : Artifact :=
  {| id := 1; name := "artifact-1"; size_in_bytes := 100;
     created_at := Some 1704067200000 |}.

Definition feb : Artifact :=
  {| id := 2; name := "artifact-2"; size_in_bytes := 100;
     created_at := Some 1706745600000 |}.

Definition mar : Artifact :=
  {| id := 3; name := "artifact-3"; size_in_bytes := 100;
     created_at := Some 1709251200000 |}.

Definition undated : Artifact :=
  {| id := 4; name := "artifact-4"; size_in_bytes := 100; created_at := None |}.

(** Two providers for the examples: one deletes whatever it is asked to, the
    other refuses every deletion. *)
Definition reliable : Octokit unit :=
  {| deleteArtifact_request := fun _ _ _ _ s => (s, None) |}.

Definition refusing : Octokit unit :=
  {| deleteArtifact_request :=
       fun _ _ _ _ s => (s, Some "Resource not accessible by integration") |}.

Definition untouched : World unit := {| server := tt; requests := [] |}.

(** A configuration whose limit is [limit] bytes. *)
Definition configWithLimit (limit : Z) : Config :=
  {| owner := "intercreate"; repo := "artifact-eviction-action";
     maxSizeGB := (limit # 1073741824)%Q; token := "token"; dryRun := false |}.

(** The same configuration in dry-run mode. *)
Definition configDryRun (limit : Z) : Config :=
  {| owner := "intercreate"; repo := "artifact-eviction-action";
     maxSizeGB := (limit # 1073741824)%Q; token := "token"; dryRun := true |}.

(** Reading decimal digits back: the value of a digit, of a digit string. *)
Definition digitValue (c : ascii) : Z := Z.of_nat (nat_of_ascii c) - 48.

Definition isDigit (c : ascii) : Prop := 0 <= digitValue c <= 9.

Definition digitsValue (l : list ascii) : Z :=
  fold_left (fun v c => 10 * v + digitValue c) l 0.

(** [parts.join(sep)] for a one-character separator. *)
Fixpoint String_join (sep : ascii) (parts : list string) : string :=
  match parts with
  | [] => EmptyString
  | [part] => part
  | part :: parts' => part +:+ String sep (String_join sep parts')
  end.

(** The character [c] occurs in [s]. *)
Fixpoint occurs (c : ascii) (s : string) : Prop :=
  match s with
  | EmptyString => False
  | String c' s' => c' = c \/ occurs c s'
  end.

(** A host whose [parseFloat] reads strings of decimal digits, as it does,
    and knows no other numeral. *)
Definition isDigitb (c : ascii) : bool :=
  (0 <=? digitValue c) && (digitValue c <=? 9).

Definition digitsOnly : Runtime :=
  {| parseFloat :=
       fun s =>
         let l := String.list_ascii_of_string s in
         match l with
         | [] => None
         | _ :: _ => if forallb isDigitb l then Some (inject_Z (digitsValue l)) else None
         end |}.

(** An inventory that lists the three sample artifacts, and one that cannot
    be reached. *)
Definition listing : OctokitList unit :=
  {| listArtifacts_request := fun _ _ _ s => (s, Ok [jan; feb; mar]) |}.

Definition unreachable : OctokitList unit :=
  {| listArtifacts_request := fun _ _ _ s => (s, Err "Bad credentials") |}.

(** The surroundings of a workflow run of this repository. *)
Definition workflowRun : Environment :=
  {| getInput :=
       fun name =>
         if String.eqb name "token" then "ghs_secret"
         else if String.eqb name "max_size_gb" then "20"
         else if String.eqb name "dry_run" then "false"
         else "";
     processEnv :=
       fun name =>
         if String.eqb name "GITHUB_REPOSITORY"
         then Some "intercreate/artifact-eviction-action"
         else None |}.

(** The same without any token. *)
Definition workflowRunWithoutToken : Environment :=
  {| getInput :=
       fun name => if String.eqb name "token" then "" else getInput workflowRun name;
     processEnv := processEnv workflowRun |}.

(** * Properties *)

Lemma fold_left_sizes_acc (l : list Artifact) (acc : Z) :
  fold_left (fun sum artifact => sum + size_in_bytes artifact) l acc = acc + sum_sizes l.
Proof.
  revert acc. induction l as [|a l IH]; intros acc; simpl.
  - lia.
  - rewrite IH. lia.
Qed.

Lemma calculateTotalSize_sum (l : list Artifact) :
  calculateTotalSize l = sum_sizes l.
Proof. unfold calculateTotalSize. rewrite fold_left_sizes_acc. lia. Qed.

Lemma sum_sizes_app (l1 l2 : list Artifact) :
  sum_sizes (l1 ++ l2) = sum_sizes l1 + sum_sizes l2.
Proof. induction l1 as [|a l1 IH]; simpl; lia. Qed.

Lemma sum_sizes_perm (l1 l2 : list Artifact) :
  l1 ≡ₚ l2 -> sum_sizes l1 = sum_sizes l2.
Proof. induction 1; simpl; lia. Qed.

Lemma fold_left_freed_acc (l : list DeletionResult) (acc : Z) :
  fold_left (fun sum result => sum + size_in_bytes (artifact result))
    (List.filter (fun r => success r) l) acc = acc + freed_by l.
Proof.
  revert acc. induction l as [|r l IH]; intros acc; simpl.
  - lia.
  - destruct (success r); simpl; rewrite IH; lia.
Qed.

Lemma length_filter_success (l : list DeletionResult) :
  length (List.filter (fun r => success r) l) = count_successes l.
Proof. induction l as [|r l IH]; simpl; [done|]. destruct (success r); simpl; lia. Qed.

Lemma isOverLimit_true (s m : Z) : isOverLimit s m = true <-> m < s.
Proof. unfold isOverLimit. rewrite Z.gtb_ltb. apply Z.ltb_lt. Qed.

Lemma isOverLimit_false (s m : Z) : isOverLimit s m = false <-> s <= m.
Proof. unfold isOverLimit. rewrite Z.gtb_ltb. apply Z.ltb_ge. Qed.

(** The limit handed to the library is [maxSizeGB * 1024 ** 3], which need
    not be whole.  Sizes are whole, so comparing a size with the limit and
    comparing it with the limit rounded down agree. *)
Lemma isOverLimit_floor (s : Z) (limit : Q) :
  isOverLimit s (Qfloor limit) = true <-> (limit < inject_Z s)%Q.
Proof.
  rewrite isOverLimit_true. split.
  - intros H. apply Qlt_le_trans with (inject_Z (Qfloor limit + 1)).
    + apply Qlt_floor.
    + rewrite <- Zle_Qle. lia.
  - intros H. apply Z.nle_gt. intros Hle.
    apply (Qlt_irrefl limit). eapply Qlt_le_trans; [exact H|].
    eapply Qle_trans; [|apply Qfloor_le]. rewrite <- Zle_Qle. exact Hle.
Qed.

(** ** The stable sort

    The comparator of [sortByCreatedDate] is the difference of two keys.  The
    facts about [Array_sort] are proved once for any comparator of that
    shape. *)

Section StableSort.
Context {A : Type} (key : A -> Z).

Let cmp (x y : A) : Z := key x - key y.

Lemma sort_insert_perm (x : A) (l : list A) : sort_insert cmp x l ≡ₚ x :: l.
Proof.
  induction l as [|y l IH]; simpl; [done|].
  destruct (cmp x y <=? 0); [done|].
  rewrite IH. apply Permutation_swap.
Qed.

Lemma Array_sort_perm (l : list A) : Array_sort cmp l ≡ₚ l.
Proof.
  induction l as [|x l IH]; simpl; [done|].
  rewrite sort_insert_perm. by rewrite IH.
Qed.

Lemma sort_insert_sorted (x : A) (l : list A) :
  StronglySorted (key_le key) l -> StronglySorted (key_le key) (sort_insert cmp x l).
Proof.
  induction 1 as [|y l Hl IH Hy]; simpl.
  - repeat constructor.
  - destruct (Z.leb_spec (cmp x y) 0) as [Hle|Hgt];
      [unfold cmp in Hle|unfold cmp in Hgt].
    + constructor; [by constructor|].
      constructor; [unfold key_le; lia|].
      eapply Forall_impl; [exact Hy|]. unfold key_le. intros z Hz. lia.
    + constructor; [exact IH|].
      rewrite (sort_insert_perm x l). constructor; [unfold key_le; lia|exact Hy].
Qed.

Lemma Array_sort_sorted (l : list A) : StronglySorted (key_le key) (Array_sort cmp l).
Proof.
  induction l as [|x l IH]; simpl; [constructor|]. by apply sort_insert_sorted.
Qed.

(** Sorting leaves an already sorted list as it is. *)
Lemma Array_sort_fixed (l : list A) :
  StronglySorted (key_le key) l -> Array_sort cmp l = l.
Proof.
  induction 1 as [|x l Hl IH Hx]; simpl; [done|].
  rewrite IH. destruct Hx as [|y l Hxy _]; simpl; [done|].
  unfold cmp, key_le in *.
  destruct (Z.leb_spec (key x - key y) 0); [done|lia].
Qed.

(** Stability: among the elements of one key, the order is the input's. *)
Lemma sort_insert_same_key (t : Z) (x : A) (l : list A) :
  List.filter (fun a => key a =? t) (sort_insert cmp x l)
  = List.filter (fun a => key a =? t) (x :: l).
Proof.
  induction l as [|y l IH]; [done|].
  cbn [sort_insert]. destruct (Z.leb_spec (cmp x y) 0) as [Hle|Hgt]; [done|].
  unfold cmp in Hgt. cbn [List.filter] in *. rewrite IH.
  destruct (Z.eqb_spec (key y) t), (Z.eqb_spec (key x) t); try done; lia.
Qed.

Lemma Array_sort_same_key (t : Z) (l : list A) :
  List.filter (fun a => key a =? t) (Array_sort cmp l)
  = List.filter (fun a => key a =? t) l.
Proof.
  induction l as [|x l IH]; [done|].
  change (Array_sort cmp (x :: l)) with (sort_insert cmp x (Array_sort cmp l)).
  rewrite sort_insert_same_key. cbn [List.filter]. by rewrite IH.
Qed.

(** In a sorted list, whatever follows an element has a key at least as
    large. *)
Lemma sorted_after (l1 l2 : list A) (b z : A) :
  StronglySorted (key_le key) (l1 ++ b :: l2) -> z ∈ l2 -> key b <= key z.
Proof.
  induction l1 as [|y l1 IH]; simpl; intros Hs Hz.
  - apply StronglySorted_inv in Hs as [_ Hall].
    rewrite Forall_forall in Hall. by apply Hall.
  - apply StronglySorted_inv in Hs as [Hs _]. by apply IH.
Qed.

End StableSort.

Lemma sortByCreatedDate_perm (l : list Artifact) : sortByCreatedDate l ≡ₚ l.
Proof. apply (Array_sort_perm createdTime). Qed.

Lemma sortByCreatedDate_sorted (l : list Artifact) :
  StronglySorted (key_le createdTime) (sortByCreatedDate l).
Proof. apply (Array_sort_sorted createdTime). Qed.

Lemma sortByCreatedDate_fixed (l : list Artifact) :
  StronglySorted (key_le createdTime) l -> sortByCreatedDate l = l.
Proof. apply (Array_sort_fixed createdTime). Qed.

Lemma sortByCreatedDate_stable (t : Z) (l : list Artifact) :
  List.filter (fun a => createdTime a =? t) (sortByCreatedDate l)
  = List.filter (fun a => createdTime a =? t) l.
Proof. apply (Array_sort_same_key createdTime). Qed.

(** ** The selection loop *)

(** What the loop returns: the accumulated [toDelete] followed by a prefix
    [P] of the remaining input.  No strictly shorter prefix brings the
    running size to the limit, and [P] does unless the input ran out. *)
Lemma select_loop_spec (maxSize : Z) (sorted toDelete : list Artifact) (remainingSize : Z) :
  exists P rest,
    sorted = P ++ rest
    /\ select_loop maxSize sorted toDelete remainingSize = toDelete ++ P
    /\ (forall P', P' `prefix_of` sorted -> (length P' < length P)%nat ->
          maxSize < remainingSize - sum_sizes P')
    /\ (rest <> [] -> remainingSize - sum_sizes P <= maxSize).
Proof.
  revert toDelete remainingSize.
  induction sorted as [|a sorted IH]; intros toDelete remainingSize.
  - exists [], []. simpl. rewrite app_nil_r. repeat split; try done.
    intros P' _ Hlen. simpl in Hlen. lia.
  - cbn [select_loop]. destruct (Z.leb_spec remainingSize maxSize) as [Hle|Hgt].
    + exists [], (a :: sorted). simpl. rewrite app_nil_r. repeat split; try done.
      * intros P' _ Hlen. simpl in Hlen. lia.
      * intros _. lia.
    + destruct (IH (toDelete ++ [a]) (remainingSize - size_in_bytes a))
        as (P & rest & Hsplit & Hsel & Hshort & Hstop).
      exists (a :: P), rest. repeat split.
      * simpl. by rewrite Hsplit.
      * rewrite Hsel, <- app_assoc. done.
      * intros P' [k Hk] Hlen. destruct P' as [|a' P'].
        -- simpl. lia.
        -- simpl in Hk, Hlen. injection Hk as <- Hk.
           assert (maxSize < remainingSize - size_in_bytes a - sum_sizes P').
           { apply Hshort; [by exists k|lia]. }
           simpl. lia.
      * intros Hrest. specialize (Hstop Hrest). simpl. lia.
Qed.

Lemma selectArtifactsToDelete_within (artifacts : list Artifact) (currentSize maxSize : Z) :
  currentSize <= maxSize -> selectArtifactsToDelete artifacts currentSize maxSize = [].
Proof.
  intros H. unfold selectArtifactsToDelete.
  by destruct (Z.leb_spec currentSize maxSize); [|lia].
Qed.

Lemma selectArtifactsToDelete_spec (artifacts : list Artifact) (currentSize maxSize : Z) :
  exists rest,
    sortByCreatedDate artifacts
      = selectArtifactsToDelete artifacts currentSize maxSize ++ rest
    /\ (forall P', P' `prefix_of` sortByCreatedDate artifacts ->
          (length P' < length (selectArtifactsToDelete artifacts currentSize maxSize))%nat ->
          maxSize < currentSize - sum_sizes P')
    /\ (rest <> [] ->
          currentSize - sum_sizes (selectArtifactsToDelete artifacts currentSize maxSize)
          <= maxSize).
Proof.
  unfold selectArtifactsToDelete.
  destruct (Z.leb_spec currentSize maxSize) as [Hle|Hgt].
  - exists (sortByCreatedDate artifacts). simpl. repeat split; try done.
    + intros P' _ Hlen. lia.
    + intros _. lia.
  - destruct (select_loop_spec maxSize (sortByCreatedDate artifacts) [] currentSize)
      as (P & rest & Hsplit & Hsel & Hshort & Hstop).
    simpl in Hsel. cbn zeta. rewrite Hsel. by exists rest.
Qed.

(** Over the limit, the loop takes at least the first element. *)
Lemma selectArtifactsToDelete_nonempty (artifacts : list Artifact) (currentSize maxSize : Z) :
  maxSize < currentSize -> artifacts <> [] ->
  selectArtifactsToDelete artifacts currentSize maxSize <> [].
Proof.
  intros Hover Hne Hsel.
  destruct (selectArtifactsToDelete_spec artifacts currentSize maxSize)
    as (rest & Hsplit & _ & Hstop).
  rewrite Hsel in Hsplit, Hstop. simpl in Hsplit, Hstop.
  assert (rest <> []) as Hrest.
  { intros ->. apply Hne. apply Permutation_nil_r.
    pose proof (sortByCreatedDate_perm artifacts) as Hp.
    rewrite Hsplit in Hp. by symmetry. }
  specialize (Hstop Hrest). lia.
Qed.

Example sortByCreatedDate_test : sortByCreatedDate [mar; jan; feb] = [jan; feb; mar].
Proof. reflexivity. Qed.

Example selectArtifactsToDelete_test_under :
  selectArtifactsToDelete [jan; feb] 200 500 = [].
Proof. reflexivity. Qed.

Example selectArtifactsToDelete_test_oldest :
  selectArtifactsToDelete [mar; jan; feb] 300 150 = [jan; feb].
Proof. reflexivity. Qed.

Example selectArtifactsToDelete_test_stops :
  selectArtifactsToDelete [jan; feb; mar] 300 200 = [jan].
Proof. reflexivity. Qed.

Example createCleanupSummary_test :
  let summary :=
    createCleanupSummary
      {| totalCount := 2; totalSizeBytes := 200; totalSizeGB := bytesToGB 200 |}
      [ {| artifact := jan; success := true; error := None |};
        {| artifact := feb; success := false; error := Some "Failed" |} ] [] in
  deletedCount summary = 1 /\ freedBytes summary = 100
  /\ finalSizeBytes summary = 100
  /\ map (fun r => id (artifact r)) (failures summary) = [2].
Proof. repeat split. Qed.

(** ** The statistics engine *)

(** C7.  [isOverLimit] is strict: for every non-negative [x], a size equal to
    the limit [x] is not over it, and the size [x + 1] is. *)
Theorem C7_isOverLimit_strict (x : Z) :
  0 <= x -> isOverLimit x x = false /\ isOverLimit (x + 1) x = true.
Proof.
  intros _. split.
  - apply isOverLimit_false. lia.
  - apply isOverLimit_true. lia.
Qed.

Lemma C7_isOverLimit_strict_witness :
  0 <= 100 /\ isOverLimit 100 100 = false /\ isOverLimit (100 + 1) 100 = true.
Proof. split; [lia|]. apply (C7_isOverLimit_strict 100). lia. Defined.

(** ** The cleanup accountant *)

(** C3.  In the summary built by [createCleanupSummary], [freedBytes] is the
    sum of the sizes of the successful outcomes, [deletedCount] is their
    number, and [finalSizeBytes] is the initial total minus [freedBytes]. *)
Theorem C3_createCleanupSummary_accounting (initial : ArtifactStats)
    (results : list DeletionResult) (retained : list Artifact) :
  let summary := createCleanupSummary initial results retained in
  freedBytes summary = freed_by results
  /\ deletedCount summary = Z.of_nat (count_successes results)
  /\ finalSizeBytes summary = totalSizeBytes initial - freedBytes summary.
Proof.
  cbn. rewrite fold_left_freed_acc, length_filter_success.
  split; [lia|]. split; reflexivity.
Qed.

Lemma length_filter_failure (l : list DeletionResult) :
  (length (List.filter (fun r => negb (success r)) l) + count_successes l)%nat = length l.
Proof. induction l as [|r l IH]; simpl; [done|]. destruct (success r); simpl; lia. Qed.

(** C9.  Every outcome handed to [createCleanupSummary] is counted exactly
    once: [deletedCount] plus the length of [failures] is the number of
    outcomes. *)
Theorem C9_createCleanupSummary_every_outcome_counted (initial : ArtifactStats)
    (results : list DeletionResult) (retained : list Artifact) :
  let summary := createCleanupSummary initial results retained in
  deletedCount summary + Z.of_nat (length (failures summary))
  = Z.of_nat (length results).
Proof.
  cbn. rewrite length_filter_success.
  pose proof (length_filter_failure results). lia.
Qed.

(** ** The eviction selector *)

(** Sorting commutes with a change of the elements that the comparator does
    not see. *)
Lemma Array_sort_map {A B : Type} (cmpA : A -> A -> Z) (cmpB : B -> B -> Z) (f : A -> B) :
  (forall x y, cmpB (f x) (f y) = cmpA x y) ->
  forall l, Array_sort cmpB (map f l) = map f (Array_sort cmpA l).
Proof.
  intros Hcmp. induction l as [|x l IH]; [done|].
  change (Array_sort cmpB (map f (x :: l)))
    with (sort_insert cmpB (f x) (Array_sort cmpB (map f l))).
  change (Array_sort cmpA (x :: l)) with (sort_insert cmpA x (Array_sort cmpA l)).
  rewrite IH. generalize (Array_sort cmpA l) as s. clear IH.
  induction s as [|y s IHs]; [done|]. simpl.
  rewrite Hcmp. destruct (cmpA x y <=? 0); simpl; [done|]. by rewrite IHs.
Qed.

(** The contract fails when no prefix suffices: with one artifact of 100
    bytes, a usage of 300 and a limit of 150, the artifact is selected and
    the remaining 200 bytes are still over the limit. *)
Lemma C2_no_prefix_suffices : ~ selects_shortest_prefix [jan] 300 150.
Proof.
  intros [_ Hover]. destruct Hover as (_ & Hwithin & _); [lia|].
  unfold brings_within in Hwithin. vm_compute in Hwithin. by apply Hwithin.
Qed.

(** C2 (amended).  [selectArtifactsToDelete] returns the empty sequence when
    the usage is at or below the limit.  In every case it returns a prefix of
    the oldest-first order, and no strictly shorter prefix brings the usage
    to the limit.  When some prefix does (as the whole list does whenever
    [currentSize - total size <= maxSize]), the result is the shortest such
    prefix; when none does, the result is the whole sorted list. *)
Theorem C2_selectArtifactsToDelete_shortest_prefix (artifacts : list Artifact)
    (currentSize maxSize : Z) :
  let sorted := sortByCreatedDate artifacts in
  let toDelete := selectArtifactsToDelete artifacts currentSize maxSize in
  (currentSize <= maxSize -> toDelete = [])
  /\ toDelete `prefix_of` sorted
  /\ (forall P', P' `prefix_of` sorted -> (length P' < length toDelete)%nat ->
        ~ brings_within currentSize maxSize P')
  /\ ((exists P', P' `prefix_of` sorted /\ brings_within currentSize maxSize P') ->
        shortest_sufficient_prefix currentSize maxSize sorted toDelete)
  /\ (currentSize - calculateTotalSize artifacts <= maxSize ->
        shortest_sufficient_prefix currentSize maxSize sorted toDelete)
  /\ (~ brings_within currentSize maxSize toDelete -> toDelete = sorted).
Proof.
  intros sorted toDelete.
  destruct (selectArtifactsToDelete_spec artifacts currentSize maxSize)
    as (rest & Hsplit & Hshort & Hstop).
  fold sorted toDelete in Hsplit, Hshort, Hstop.
  assert (toDelete `prefix_of` sorted) as Hprefix by (by exists rest).
  assert (forall P', P' `prefix_of` sorted -> (length P' < length toDelete)%nat ->
            ~ brings_within currentSize maxSize P') as Hmin.
  { intros P' HP' Hlen Hin. unfold brings_within in Hin.
    rewrite calculateTotalSize_sum in Hin. specialize (Hshort P' HP' Hlen). lia. }
  assert (~ brings_within currentSize maxSize toDelete -> toDelete = sorted) as Hall.
  { intros Hnot. destruct rest as [|a rest].
    - by rewrite app_nil_r in Hsplit.
    - exfalso. apply Hnot. unfold brings_within. rewrite calculateTotalSize_sum.
      by apply Hstop. }
  assert ((exists P', P' `prefix_of` sorted /\ brings_within currentSize maxSize P') ->
          shortest_sufficient_prefix currentSize maxSize sorted toDelete) as Hsome.
  { intros (P' & HP' & Hin). repeat split; [done| |done].
    destruct (decide (currentSize - calculateTotalSize toDelete <= maxSize))
      as [Hok|Hnot]; [done|].
    specialize (Hall Hnot).
    destruct (decide (length P' < length toDelete)%nat) as [Hlt|Hge].
    - by destruct (Hmin P' HP' Hlt).
    - assert (P' = sorted) as ->; [|by rewrite Hall].
      destruct HP' as [k Hk]. rewrite Hall in Hge. rewrite Hk in Hge |- *.
      rewrite length_app in Hge. destruct k; [by rewrite app_nil_r|].
      simpl in Hge. lia. }
  assert (brings_within currentSize maxSize sorted
          <-> currentSize - calculateTotalSize artifacts <= maxSize) as Hwhole.
  { unfold brings_within. rewrite !calculateTotalSize_sum.
    by rewrite (sum_sizes_perm sorted artifacts) by apply sortByCreatedDate_perm. }
  split; [apply selectArtifactsToDelete_within|].
  split; [exact Hprefix|]. split; [exact Hmin|]. split; [exact Hsome|].
  split; [|exact Hall].
  intros Hle. apply Hsome. exists sorted. split; [done|]. by apply Hwhole.
Qed.

Lemma createdTime_atEpoch (a : Artifact) : createdTime (atEpoch a) = createdTime a.
Proof. unfold atEpoch, createdTime. by destruct (created_at a) eqn:E; [rewrite E|]. Qed.

Lemma undated_before_dated (sorted l1 l2 : list Artifact) (a b : Artifact) :
  StronglySorted (key_le createdTime) sorted ->
  a ∈ sorted -> created_at a = None -> 0 < createdTime b ->
  sorted = l1 ++ b :: l2 -> a ∈ l1.
Proof.
  intros Hsorted Ha Hnull Hb ->.
  assert (createdTime a = 0) as Hzero by (unfold createdTime; by rewrite Hnull).
  apply elem_of_app in Ha as [Ha|Ha]; [done|].
  apply elem_of_cons in Ha as [->|Ha]; [lia|].
  pose proof (sorted_after createdTime l1 l2 b a Hsorted Ha). lia.
Qed.

(** C5.  An artifact without a creation date is ordered as if it had been
    created at the epoch: sorting is the same as sorting with the epoch
    filled in.  It therefore comes before every artifact with a positive
    timestamp, both in the order of [sortByCreatedDate] and among the
    artifacts [selectArtifactsToDelete] selects. *)
Theorem C5_undated_artifact_sorts_as_epoch (artifacts : list Artifact) (a b : Artifact)
    (l1 l2 : list Artifact) (currentSize maxSize : Z) :
  a ∈ artifacts -> created_at a = None -> 0 < createdTime b ->
  sortByCreatedDate (map atEpoch artifacts) = map atEpoch (sortByCreatedDate artifacts)
  /\ (sortByCreatedDate artifacts = l1 ++ b :: l2 -> a ∈ l1)
  /\ (selectArtifactsToDelete artifacts currentSize maxSize = l1 ++ b :: l2 -> a ∈ l1).
Proof.
  intros Ha Hnull Hb.
  assert (a ∈ sortByCreatedDate artifacts) as Hin.
  { by rewrite sortByCreatedDate_perm. }
  split; [|split].
  - apply Array_sort_map. intros x y. unfold compareCreated.
    fold (createdTime (atEpoch x)) (createdTime (atEpoch y)) (createdTime x) (createdTime y).
    by rewrite !createdTime_atEpoch.
  - intros Hsplit.
    eapply undated_before_dated; eauto using sortByCreatedDate_sorted.
  - intros Hsel.
    destruct (selectArtifactsToDelete_spec artifacts currentSize maxSize)
      as (rest & Hsplit & _).
    rewrite Hsel, <- app_assoc in Hsplit. simpl in Hsplit.
    eapply undated_before_dated; eauto using sortByCreatedDate_sorted.
Qed.

Lemma C5_undated_artifact_sorts_as_epoch_witness :
  sortByCreatedDate [mar; undated] = [undated] ++ mar :: []
  /\ selectArtifactsToDelete [mar; undated] 200 0 = [undated] ++ mar :: []
  /\ undated ∈ [undated].
Proof.
  assert (undated ∈ [mar; undated]) as Ha by (right; left).
  assert (0 < createdTime mar) as Hb by reflexivity.
  destruct (C5_undated_artifact_sorts_as_epoch [mar; undated] undated mar
              [undated] [] 200 0 Ha eq_refl Hb) as (_ & Hsort & _).
  split; [reflexivity|]. split; [reflexivity|]. apply Hsort. reflexivity.
Defined.

Lemma sortByCreatedDate_heap_spec (h : Heap) (r : nat) (artifacts : list Artifact) :
  h !! r = Some artifacts ->
  exists r' h',
    sortByCreatedDate_heap r h = Some (r', h')
    /\ h' !! r' = Some (sortByCreatedDate artifacts)
    /\ r' <> r
    /\ h' !! r = Some artifacts
    /\ forall k, k <> r' -> h' !! k = h !! k.
Proof.
  intros Hr. unfold sortByCreatedDate_heap, Array_spread, Array_sort_inplace.
  rewrite Hr. cbn zeta. set (r' := fresh (dom h)).
  assert (r' <> r) as Hne.
  { intros Heq. apply (is_fresh (dom h)). fold r'. rewrite Heq.
    apply elem_of_dom. by eexists. }
  rewrite lookup_insert_eq.
  eexists r', _. split; [reflexivity|].
  split; [by rewrite lookup_insert_eq|]. split; [done|].
  split.
  - by rewrite !lookup_insert_ne.
  - intros k Hk. by rewrite !lookup_insert_ne.
Qed.

(** C6.  [sortByCreatedDate] returns a permutation of its input (so the ids
    form the same multiset), in ascending order of creation time;  sorting
    its output again changes nothing, and artifacts with equal timestamps
    keep their relative order.  On the heap, the result is a newly allocated
    array: the caller's array, and every other array, is left as it was. *)
Theorem C6_sortByCreatedDate_permutation_idempotent_no_mutation (h : Heap) (r : nat)
    (artifacts : list Artifact) :
  h !! r = Some artifacts ->
  sortByCreatedDate artifacts ≡ₚ artifacts
  /\ map id (sortByCreatedDate artifacts) ≡ₚ map id artifacts
  /\ StronglySorted (key_le createdTime) (sortByCreatedDate artifacts)
  /\ sortByCreatedDate (sortByCreatedDate artifacts) = sortByCreatedDate artifacts
  /\ (forall t,
        List.filter (fun a => createdTime a =? t) (sortByCreatedDate artifacts)
        = List.filter (fun a => createdTime a =? t) artifacts)
  /\ exists r' h',
       sortByCreatedDate_heap r h = Some (r', h')
       /\ h' !! r' = Some (sortByCreatedDate artifacts)
       /\ r' <> r
       /\ h' !! r = Some artifacts
       /\ forall k, k <> r' -> h' !! k = h !! k.
Proof.
  intros Hr.
  split; [apply sortByCreatedDate_perm|].
  split; [apply Permutation_map, sortByCreatedDate_perm|].
  split; [apply sortByCreatedDate_sorted|].
  split; [apply sortByCreatedDate_fixed, sortByCreatedDate_sorted|].
  split; [intros t; apply sortByCreatedDate_stable|].
  by apply sortByCreatedDate_heap_spec.
Qed.

Lemma C6_sortByCreatedDate_permutation_idempotent_no_mutation_witness :
  let h : Heap := {[ 0%nat := [feb; jan] ]} in
  h !! 0%nat = Some [feb; jan]
  /\ exists r' h',
       sortByCreatedDate_heap 0 h = Some (r', h')
       /\ h' !! r' = Some [jan; feb]
       /\ h' !! 0%nat = Some [feb; jan].
Proof.
  intros h.
  assert (h !! 0%nat = Some [feb; jan]) as Hr by apply lookup_singleton_eq.
  split; [exact Hr|].
  destruct (C6_sortByCreatedDate_permutation_idempotent_no_mutation h 0 [feb; jan] Hr)
    as (_ & _ & _ & _ & _ & r' & h' & Hrun & Hnew & _ & Hold & _).
  exists r', h'. repeat split; assumption.
Defined.

(** ** The orchestrator *)

Lemma ids_cons (a : Artifact) (l : list Artifact) : ids (a :: l) = {[id a]} ∪ ids l.
Proof. reflexivity. Qed.

Lemma elem_of_ids (x : Z) (l : list Artifact) :
  x ∈ ids l <-> exists a, a ∈ l /\ id a = x.
Proof.
  unfold ids. rewrite elem_of_list_to_set, list_elem_of_fmap. naive_solver.
Qed.

Lemma ids_perm (l1 l2 : list Artifact) : l1 ≡ₚ l2 -> ids l1 = ids l2.
Proof.
  intros Hp. apply set_eq. intros x. rewrite !elem_of_ids.
  split; intros (a & Ha & <-); exists a; split; try done.
  - by rewrite <- Hp.
  - by rewrite Hp.
Qed.

Lemma ids_app (l1 l2 : list Artifact) : ids (l1 ++ l2) = ids l1 ∪ ids l2.
Proof.
  apply set_eq. intros x. rewrite elem_of_union, !elem_of_ids.
  setoid_rewrite elem_of_app. naive_solver.
Qed.

(** The [retained] list of [performCleanup]: its ids are the ids of the
    input that are not in the [Set] of selected ids. *)
Lemma ids_retained (X : gset Z) (l : list Artifact) :
  ids (List.filter (fun a => negb (bool_decide (id a ∈ X))) l) = ids l ∖ X.
Proof.
  induction l as [|a l IH]; [set_solver|].
  cbn [List.filter]. case_bool_decide as Hin; cbn [negb].
  - rewrite IH, ids_cons. set_solver.
  - rewrite !ids_cons, IH. set_solver.
Qed.

Lemma outcome_ids_split (results : list DeletionResult) :
  succeeded_ids results ∪ failed_ids results = ids (map artifact results).
Proof.
  unfold succeeded_ids, failed_ids.
  induction results as [|r results IH]; [set_solver|].
  cbn [List.filter map]. destruct (success r); cbn [negb map];
    rewrite !ids_cons, <- IH; set_solver.
Qed.

Example maxSizeBytes_of_test : maxSizeBytes_of (configWithLimit 250) = 250.
Proof. reflexivity. Qed.

(** The end-to-end scenario: three artifacts of 100 bytes, a limit of 250. *)
Example performCleanup_test :
  exists summary,
    @performCleanup unit reliable (configWithLimit 250) [jan; feb; mar] untouched
    = ({| server := tt; requests := [1] |}, Ok summary)
    /\ deletedCount summary = 1 /\ freedBytes summary = 100
    /\ finalSizeBytes summary = 200 /\ retained summary = [feb; mar]
    /\ failures summary = [].
Proof. eexists. split; [vm_compute; reflexivity|]. repeat split. Qed.

Section OrchestratorFacts.
Context {Server : Type} `{!Octokit Server}.

Lemma deleteArtifact_outcome (config : Config) (a : Artifact) (w : World Server) :
  let result := (deleteArtifact config a w).2 in
  artifact result = a /\ (success result = false <-> is_Some (error result)).
Proof.
  unfold deleteArtifact. destruct (dryRun config); simpl.
  - split; [done|]. split; [done|]. by intros [? ?].
  - destruct (deleteArtifact_request _ _ _ _ _) as [s' [errorMessage|]]; simpl.
    + split; [done|]. split; [by eexists|done].
    + split; [done|]. split; [done|]. by intros [? ?].
Qed.

(** Every artifact handed to [deleteArtifacts] gets its outcome, in order,
    whatever happens to the others. *)
Lemma deleteArtifacts_artifacts (config : Config) (artifacts : list Artifact)
    (w : World Server) :
  map artifact (deleteArtifacts config artifacts w).2 = artifacts.
Proof.
  revert w. induction artifacts as [|a artifacts IH]; intros w; [done|].
  cbn [deleteArtifacts].
  pose proof (deleteArtifact_outcome config a w) as [Ha _].
  destruct (deleteArtifact config a w) as [w1 result].
  specialize (IH w1). destruct (deleteArtifacts config artifacts w1) as [w2 results].
  simpl in *. by rewrite Ha, IH.
Qed.

Lemma deleteArtifacts_errors (config : Config) (artifacts : list Artifact)
    (w : World Server) :
  Forall (fun r => success r = false <-> is_Some (error r))
    (deleteArtifacts config artifacts w).2.
Proof.
  revert w. induction artifacts as [|a artifacts IH]; intros w; [constructor|].
  cbn [deleteArtifacts].
  pose proof (deleteArtifact_outcome config a w) as [_ He].
  destruct (deleteArtifact config a w) as [w1 result].
  specialize (IH w1). destruct (deleteArtifacts config artifacts w1) as [w2 results].
  simpl in *. by constructor.
Qed.

(** In a dry run nothing is requested and every outcome is a success. *)
Lemma deleteArtifacts_dryRun (config : Config) (artifacts : list Artifact)
    (w : World Server) :
  dryRun config = true ->
  deleteArtifacts config artifacts w
  = (w, map (fun a => {| artifact := a; success := true; error := None |}) artifacts).
Proof.
  intros Hdry. induction artifacts as [|a artifacts IH]; [done|].
  cbn [deleteArtifacts]. unfold deleteArtifact at 1. rewrite Hdry, IH. done.
Qed.

(** The three ways [performCleanup] can go. *)
Lemma performCleanup_within (config : Config) (artifacts : list Artifact)
    (w : World Server) :
  calculateTotalSize artifacts <= maxSizeBytes_of config ->
  performCleanup config artifacts w
  = (w, Ok {| initial := calculateStats artifacts;
              deletedCount := 0;
              freedBytes := 0;
              freedGB := 0%Q;
              finalSizeBytes := calculateTotalSize artifacts;
              finalSizeGB := bytesToGB (calculateTotalSize artifacts);
              failures := [];
              retained := artifacts |}).
Proof.
  intros Hle. unfold performCleanup. cbn [totalSizeBytes calculateStats totalSizeGB].
  apply isOverLimit_false in Hle. by rewrite Hle.
Qed.

Lemma performCleanup_over (config : Config) (artifacts : list Artifact)
    (w : World Server) :
  maxSizeBytes_of config < calculateTotalSize artifacts ->
  let toDelete :=
    selectArtifactsToDelete artifacts (calculateTotalSize artifacts)
      (maxSizeBytes_of config) in
  performCleanup config artifacts w
  = match toDelete with
    | [] => (w, Err noArtifactsError)
    | _ :: _ =>
        ((deleteArtifacts config toDelete w).1,
         Ok (createCleanupSummary (calculateStats artifacts)
               (deleteArtifacts config toDelete w).2
               (List.filter (fun a => negb (bool_decide (id a ∈ ids toDelete)))
                  artifacts)))
    end.
Proof.
  intros Hover toDelete. unfold performCleanup.
  cbn [totalSizeBytes calculateStats totalSizeGB].
  apply isOverLimit_true in Hover. rewrite Hover. cbn [negb]. fold toDelete.
  destruct toDelete as [|a toDelete'] eqn:E; [done|]. cbn [length Nat.eqb].
  by destruct (deleteArtifacts config (a :: toDelete') w).
Qed.

End OrchestratorFacts.

Lemma within_limit_floor (s : Z) (limit : Q) :
  (inject_Z s <= limit)%Q <-> s <= Qfloor limit.
Proof.
  rewrite <- isOverLimit_false. split.
  - intros Hle. destruct (isOverLimit s (Qfloor limit)) eqn:E; [|done].
    apply isOverLimit_floor in E. by apply Qlt_not_le in E.
  - intros Hfalse. apply Qnot_lt_le. intros Hlt.
    apply isOverLimit_floor in Hlt. congruence.
Qed.

Section Pipeline.
Context {Server : Type} `{!Octokit Server}.

(** C10.  When the initial total size is at or below the limit,
    [performCleanup] succeeds with a summary that reports nothing deleted,
    nothing freed, the initial size as final size, no failures and the whole
    input, unchanged, as retained; no deletion is attempted: there is no
    outcome and the world, with its record of DELETE calls, is as before. *)
Theorem C10_performCleanup_within_limit (config : Config) (artifacts : list Artifact)
    (w : World Server) :
  (inject_Z (calculateTotalSize artifacts) <= limitBytes config)%Q ->
  exists summary,
    performCleanup config artifacts w = (w, Ok summary)
    /\ initial summary = calculateStats artifacts
    /\ deletedCount summary = 0
    /\ freedBytes summary = 0
    /\ finalSizeBytes summary = calculateTotalSize artifacts
    /\ failures summary = []
    /\ retained summary = artifacts
    /\ cleanupResults config artifacts w = [].
Proof.
  intros Hle. apply within_limit_floor in Hle. fold (maxSizeBytes_of config) in Hle.
  eexists. split; [by apply performCleanup_within|].
  repeat split. unfold cleanupResults. cbn [totalSizeBytes calculateStats].
  apply isOverLimit_false in Hle. by rewrite Hle.
Qed.

(** [performCleanup] fails in one situation only; failed deletions never
    turn the result into an error. *)
Lemma performCleanup_Err_inv (config : Config) (artifacts : list Artifact)
    (w w' : World Server) (message : string) :
  performCleanup config artifacts w = (w', Err message) ->
  message = noArtifactsError /\ w' = w
  /\ isOverLimit (calculateTotalSize artifacts) (maxSizeBytes_of config) = true
  /\ selectArtifactsToDelete artifacts (calculateTotalSize artifacts)
       (maxSizeBytes_of config) = [].
Proof.
  destruct (Z.le_gt_cases (calculateTotalSize artifacts) (maxSizeBytes_of config))
    as [Hle|Hover].
  - by rewrite performCleanup_within.
  - rewrite performCleanup_over by done. cbn zeta.
    destruct (selectArtifactsToDelete _ _ _); [|done].
    intros [= <- <-]. by rewrite isOverLimit_true.
Qed.

(** C4.  If the selection is empty although the size is over the limit,
    [performCleanup] returns the internal-error result, a failure of the run
    itself and not a [DeletionResult]; it produces no summary and issues no
    deletion. *)
Theorem C4_empty_selection_over_limit_is_internal_error (config : Config)
    (artifacts : list Artifact) (w : World Server) :
  let initialStats := calculateStats artifacts in
  let maxSizeBytes := maxSizeBytes_of config in
  isOverLimit (totalSizeBytes initialStats) maxSizeBytes = true ->
  selectArtifactsToDelete artifacts (totalSizeBytes initialStats) maxSizeBytes = [] ->
  performCleanup config artifacts w = (w, Err noArtifactsError)
  /\ forall w' summary, performCleanup config artifacts w <> (w', Ok summary).
Proof.
  cbn [totalSizeBytes calculateStats]. intros Hover Hempty.
  assert (performCleanup config artifacts w = (w, Err noArtifactsError)) as Hrun.
  { apply isOverLimit_true in Hover. rewrite performCleanup_over by done.
    cbn zeta. by rewrite Hempty. }
  split; [exact Hrun|]. intros w' summary. by rewrite Hrun.
Qed.

(** C8.  The [failures] of the summary are the failed outcomes of the input,
    in their input order and each as it was given, with its error message:
    a subsequence of the input made of failed outcomes only, from which no
    failed outcome is missing.  Upstream, [deleteArtifacts] yields one
    outcome per artifact, in order, whether or not earlier deletions failed,
    and an outcome is a failure exactly when it carries an error message. *)
Theorem C8_failures_stable_subsequence (initial : ArtifactStats)
    (results : list DeletionResult) (retained : list Artifact)
    (config : Config) (artifacts : list Artifact) (w : World Server) :
  let summary := createCleanupSummary initial results retained in
  failures summary `sublist_of` results
  /\ Forall (fun r => success r = false) (failures summary)
  /\ (forall r, r ∈ results -> success r = false -> r ∈ failures summary)
  /\ (length (failures summary) + count_successes results)%nat = length results
  /\ map artifact (deleteArtifacts config artifacts w).2 = artifacts
  /\ Forall (fun r => success r = false <-> is_Some (error r))
       (deleteArtifacts config artifacts w).2.
Proof.
  cbn [failures createCleanupSummary].
  split; [|split; [|split; [|split; [|split]]]].
  - induction results as [|r results IH]; [done|].
    cbn [List.filter]. destruct (success r); cbn [negb].
    + by apply sublist_cons.
    + by apply sublist_skip.
  - apply Forall_forall. intros r Hr. apply list_elem_of_In, filter_In in Hr as [_ Hr].
    by destruct (success r).
  - intros r Hr Hfailed. apply list_elem_of_In, filter_In. split.
    + by apply list_elem_of_In.
    + by rewrite Hfailed.
  - apply length_filter_failure.
  - apply deleteArtifacts_artifacts.
  - apply deleteArtifacts_errors.
Qed.

End Pipeline.

Lemma C10_performCleanup_within_limit_witness :
  (inject_Z (calculateTotalSize [jan; feb]) <= limitBytes (configWithLimit 250))%Q
  /\ exists summary,
       @performCleanup unit refusing (configWithLimit 250) [jan; feb] untouched
       = (untouched, Ok summary)
       /\ retained summary = [jan; feb].
Proof.
  assert (inject_Z (calculateTotalSize [jan; feb])
          <= limitBytes (configWithLimit 250))%Q as Hle.
  { apply within_limit_floor. vm_compute. discriminate. }
  split; [exact Hle|].
  destruct (@C10_performCleanup_within_limit unit refusing (configWithLimit 250)
              [jan; feb] untouched Hle)
    as (summary & Hrun & _ & _ & _ & _ & _ & Hretained & _).
  exists summary. split; assumption.
Defined.

(** [performCleanup] accepts any configuration; with a negative limit and no
    artifact at all the size 0 is over the limit and nothing can be selected. *)
Lemma C4_empty_selection_over_limit_is_internal_error_witness :
  isOverLimit (totalSizeBytes (calculateStats [])) (maxSizeBytes_of (configWithLimit (-1)))
  = true
  /\ selectArtifactsToDelete [] (totalSizeBytes (calculateStats []))
       (maxSizeBytes_of (configWithLimit (-1))) = []
  /\ @performCleanup unit reliable (configWithLimit (-1)) [] untouched
     = (untouched, Err noArtifactsError).
Proof.
  split; [reflexivity|]. split; [reflexivity|].
  apply (@C4_empty_selection_over_limit_is_internal_error unit reliable
           (configWithLimit (-1)) [] untouched); reflexivity.
Defined.

(** ** The invariant of a whole run *)

(** A run in which the deletion of the oldest artifact is refused: the
    artifact is neither retained nor deleted with success. *)
Lemma C1_refused_deletion_is_in_neither :
  ~ @retained_and_deleted_partition unit refusing (configWithLimit 250)
      [jan; feb; mar] untouched.
Proof.
  intros Hinv.
  destruct (Hinv {| server := tt; requests := [1] |}
              (createCleanupSummary (calculateStats [jan; feb; mar])
                 [ {| artifact := jan; success := false;
                      error := Some "Resource not accessible by integration" |} ]
                 [feb; mar])) as [Hunion _].
  { vm_compute. reflexivity. }
  assert (1 ∈ ids [jan; feb; mar]) as Hjan.
  { apply elem_of_ids. exists jan. split; [left|reflexivity]. }
  rewrite <- Hunion in Hjan. apply elem_of_union in Hjan as [Hr|Hs].
  - apply elem_of_ids in Hr as (a & Ha & Hid). cbn in Ha.
    apply elem_of_cons in Ha as [->|Ha]; [discriminate|].
    apply elem_of_cons in Ha as [->|Ha]; [discriminate|].
    by apply elem_of_nil in Ha.
  - apply elem_of_ids in Hs as (a & Ha & _). vm_compute in Ha.
    by apply elem_of_nil in Ha.
Qed.

Lemma ids_selected_subseteq (artifacts : list Artifact) (currentSize maxSize : Z) :
  ids (selectArtifactsToDelete artifacts currentSize maxSize) ⊆ ids artifacts.
Proof.
  destruct (selectArtifactsToDelete_spec artifacts currentSize maxSize)
    as (rest & Hsplit & _).
  rewrite <- (ids_perm _ _ (sortByCreatedDate_perm artifacts)), Hsplit, ids_app.
  set_solver.
Qed.

(** C1 (amended).  Of every run that ends with a summary, the retained ids,
    the ids deleted with success and the ids whose deletion failed (those of
    the summary's [failures]) together are the ids of the fetched list, and
    no retained id is among the other two; in particular retained and
    successfully deleted ids are disjoint, and when no deletion fails they
    make up the whole fetched list. *)
Theorem C1_retained_deleted_failed_cover {Server : Type} `{!Octokit Server}
    (config : Config) (artifacts : list Artifact) (w w' : World Server)
    (summary : CleanupSummary) :
  performCleanup config artifacts w = (w', Ok summary) ->
  let results := cleanupResults config artifacts w in
  ids (retained summary) ∪ succeeded_ids results ∪ failed_ids results = ids artifacts
  /\ ids (retained summary) ## succeeded_ids results ∪ failed_ids results
  /\ ids (retained summary) ## succeeded_ids results
  /\ failed_ids results = ids (map artifact (failures summary))
  /\ (failures summary = [] ->
      ids (retained summary) ∪ succeeded_ids results = ids artifacts).
Proof.
  intros Hrun results.
  assert (ids (retained summary) ∪ (succeeded_ids results ∪ failed_ids results)
          = ids artifacts
          /\ ids (retained summary) ## succeeded_ids results ∪ failed_ids results
          /\ failed_ids results = ids (map artifact (failures summary))) as (Hcover & Hdisj & Hfail).
  { subst results. unfold cleanupResults. cbn [totalSizeBytes calculateStats].
    destruct (Z.le_gt_cases (calculateTotalSize artifacts) (maxSizeBytes_of config))
      as [Hle|Hover].
    - rewrite performCleanup_within in Hrun by done. injection Hrun as _ <-.
      apply isOverLimit_false in Hle. rewrite Hle. cbn. set_solver.
    - rewrite performCleanup_over in Hrun by done. cbn zeta in Hrun.
      pose proof (ids_selected_subseteq artifacts (calculateTotalSize artifacts)
                    (maxSizeBytes_of config)) as Hsub.
      apply isOverLimit_true in Hover. rewrite Hover. cbn [negb].
      destruct (selectArtifactsToDelete artifacts (calculateTotalSize artifacts)
                  (maxSizeBytes_of config)) as [|a toDelete]; [done|].
      injection Hrun as _ <-. cbn [retained failures createCleanupSummary].
      rewrite outcome_ids_split, deleteArtifacts_artifacts, ids_retained.
      split; [|split; [set_solver|done]].
      rewrite (union_comm_L (ids artifacts ∖ _)).
      symmetry. by apply union_difference_L. }
  split; [by rewrite <- (assoc_L (∪))|]. split; [done|]. split; [set_solver|].
  split; [done|]. intros Hnone. rewrite Hnone in Hfail.
  rewrite <- Hcover, Hfail. set_solver.
Qed.

Lemma C1_retained_deleted_failed_cover_witness :
  exists summary,
    @performCleanup unit reliable (configWithLimit 250) [jan; feb; mar] untouched
    = ({| server := tt; requests := [1] |}, Ok summary)
    /\ failures summary = []
    /\ ids (retained summary)
       ∪ succeeded_ids
           (@cleanupResults unit reliable (configWithLimit 250) [jan; feb; mar] untouched)
       = ids [jan; feb; mar].
Proof.
  eexists. split; [vm_compute; reflexivity|]. split; [reflexivity|].
  eapply (@C1_retained_deleted_failed_cover unit reliable (configWithLimit 250)
            [jan; feb; mar] untouched); [vm_compute; reflexivity|reflexivity].
Defined.

(** * Further properties of the library *)

(** ** Statistics *)

(** The total size does not depend on the order of the artifacts and adds up
    over concatenation; the empty list weighs nothing. *)
Theorem calculateTotalSize_order_insensitive (l1 l2 : list Artifact) :
  calculateTotalSize [] = 0
  /\ calculateTotalSize (l1 ++ l2) = calculateTotalSize l1 + calculateTotalSize l2
  /\ (l1 ≡ₚ l2 -> calculateTotalSize l1 = calculateTotalSize l2).
Proof.
  split; [reflexivity|]. split.
  - rewrite !calculateTotalSize_sum. apply sum_sizes_app.
  - intros Hp. rewrite !calculateTotalSize_sum. by apply sum_sizes_perm.
Qed.

(** Gigabytes and bytes convert back and forth without loss: a limit given
    as [bytesToGB b] gigabytes is the limit of [b] bytes, and the gigabyte
    figure of the statistics times 1024^3 is the byte figure. *)
Theorem bytesToGB_round_trip (b : Z) (config : Config) (artifacts : list Artifact) :
  (maxSizeGB config == bytesToGB b)%Q ->
  maxSizeBytes_of config = b
  /\ (totalSizeGB (calculateStats artifacts) * inject_Z (1024 ^ 3)
      == inject_Z (totalSizeBytes (calculateStats artifacts)))%Q.
Proof.
  intros Hgb.
  assert (forall z, (bytesToGB z * inject_Z (1024 ^ 3) == inject_Z z)%Q) as Hback.
  { intros z. unfold bytesToGB. field. discriminate. }
  split; [|apply Hback].
  unfold maxSizeBytes_of, limitBytes.
  rewrite Hgb, Hback. apply Qfloor_Z.
Qed.

Lemma bytesToGB_round_trip_witness :
  (maxSizeGB (configWithLimit 250) == bytesToGB 250)%Q
  /\ maxSizeBytes_of (configWithLimit 250) = 250.
Proof.
  assert (maxSizeGB (configWithLimit 250) == bytesToGB 250)%Q as H by reflexivity.
  split; [exact H|]. apply (bytesToGB_round_trip 250 (configWithLimit 250) [] H).
Defined.

(** The age in days is the number of whole days between creation and [now]:
    it is non-negative exactly when the creation is not in the future, and a
    missing creation date counts from the epoch. *)
Theorem calculateAge_whole_days (createdAt : option Z) (now : Z) :
  let day := 1000 * 60 * 60 * 24 in
  let age := calculateAge createdAt now in
  day * age <= now - getTime createdAt < day * (age + 1)
  /\ (0 <= age <-> getTime createdAt <= now)
  /\ calculateAge None now = now / day.
Proof.
  cbn zeta. unfold calculateAge.
  set (d := now - getTime createdAt).
  change (1000 * 60 * 60 * 24) with 86400000.
  pose proof (Z.div_mod d 86400000 ltac:(lia)) as Hdm.
  pose proof (Z.mod_pos_bound d 86400000 ltac:(lia)) as Hb.
  split; [lia|]. split.
  - subst d. split; intros H.
    + lia.
    + apply Z.div_pos; lia.
  - simpl. by rewrite Z.sub_0_r.
Qed.

(** ** Selection *)

(** Raising the limit never selects more: the selection for the higher limit
    is a prefix of the selection for the lower one. *)
Theorem selectArtifactsToDelete_monotone (artifacts : list Artifact)
    (currentSize maxSize1 maxSize2 : Z) :
  maxSize1 <= maxSize2 ->
  selectArtifactsToDelete artifacts currentSize maxSize2
    `prefix_of` selectArtifactsToDelete artifacts currentSize maxSize1.
Proof.
  intros Hle.
  destruct (selectArtifactsToDelete_spec artifacts currentSize maxSize1)
    as (rest1 & Hsplit1 & _ & Hstop1).
  destruct (selectArtifactsToDelete_spec artifacts currentSize maxSize2)
    as (rest2 & Hsplit2 & Hshort2 & _).
  set (sel1 := selectArtifactsToDelete artifacts currentSize maxSize1) in *.
  set (sel2 := selectArtifactsToDelete artifacts currentSize maxSize2) in *.
  assert (sel1 `prefix_of` sortByCreatedDate artifacts) as Hp1 by (by exists rest1).
  assert (sel2 `prefix_of` sortByCreatedDate artifacts) as Hp2 by (by exists rest2).
  destruct (prefix_weak_total _ _ _ Hp2 Hp1) as [H21|H12]; [done|].
  destruct (decide (length sel1 < length sel2)%nat) as [Hlt|Hge].
  - exfalso. specialize (Hshort2 sel1 Hp1 Hlt).
    assert (rest1 <> []) as Hrest1.
    { intros ->. rewrite app_nil_r in Hsplit1.
      apply prefix_length in Hp2. rewrite Hsplit1 in Hp2. lia. }
    specialize (Hstop1 Hrest1). lia.
  - apply prefix_length in H12 as Hlen.
    assert (sel1 = sel2) as ->; [|done].
    apply (prefix_length_eq _ _ H12). lia.
Qed.

Lemma selectArtifactsToDelete_monotone_witness :
  150 <= 200
  /\ selectArtifactsToDelete [mar; jan; feb] 300 200
       `prefix_of` selectArtifactsToDelete [mar; jan; feb] 300 150.
Proof.
  split; [lia|]. apply (selectArtifactsToDelete_monotone [mar; jan; feb] 300 150 200). lia.
Defined.

Lemma sorted_app_le {A : Type} (key : A -> Z) (l1 l2 : list A) (x y : A) :
  StronglySorted (key_le key) (l1 ++ l2) -> x ∈ l1 -> y ∈ l2 -> key x <= key y.
Proof.
  intros Hs Hx Hy. apply list_elem_of_split in Hx as (la & lb & ->).
  rewrite <- app_assoc in Hs. simpl in Hs.
  apply (sorted_after key la (lb ++ l2) x y Hs). apply elem_of_app. by right.
Qed.

(** Whatever the selection leaves over comes after it in the order. *)
Lemma selection_before_rest (artifacts rest : list Artifact)
    (currentSize maxSize : Z) (d r : Artifact) :
  sortByCreatedDate artifacts
  = selectArtifactsToDelete artifacts currentSize maxSize ++ rest ->
  d ∈ selectArtifactsToDelete artifacts currentSize maxSize -> r ∈ rest ->
  createdTime d <= createdTime r.
Proof.
  intros Hsplit Hd Hr. pose proof (sortByCreatedDate_sorted artifacts) as Hsorted.
  rewrite Hsplit in Hsorted. by apply (sorted_app_le createdTime _ _ d r Hsorted).
Qed.



(** ** Accounting *)

Lemma freed_by_perm (l1 l2 : list DeletionResult) :
  l1 ≡ₚ l2 -> freed_by l1 = freed_by l2.
Proof.
  induction 1 as [|r l1 l2 _ IH|r1 r2 l|l1 l2 l3 _ IH1 _ IH2]; simpl.
  - done.
  - by rewrite IH.
  - destruct (success r1), (success r2); lia.
  - congruence.
Qed.

Lemma count_successes_perm (l1 l2 : list DeletionResult) :
  l1 ≡ₚ l2 -> count_successes l1 = count_successes l2.
Proof.
  induction 1 as [|r l1 l2 _ IH|r1 r2 l|l1 l2 l3 _ IH1 _ IH2]; simpl.
  - done.
  - by rewrite IH.
  - by destruct (success r1), (success r2).
  - congruence.
Qed.

Lemma List_filter_perm {A : Type} (f : A -> bool) (l1 l2 : list A) :
  l1 ≡ₚ l2 -> List.filter f l1 ≡ₚ List.filter f l2.
Proof.
  induction 1 as [|x l1 l2 _ IH|x y l|l1 l2 l3 _ IH1 _ IH2]; simpl.
  - done.
  - destruct (f x); by rewrite IH.
  - destruct (f x), (f y); try done. apply Permutation_swap.
  - by rewrite IH1.
Qed.

(** The figures of the summary do not depend on the order in which the
    outcomes were collected; only the order of [failures] follows it. *)
Theorem createCleanupSummary_order_insensitive (initial : ArtifactStats)
    (results1 results2 : list DeletionResult) (retained : list Artifact) :
  results1 ≡ₚ results2 ->
  let s1 := createCleanupSummary initial results1 retained in
  let s2 := createCleanupSummary initial results2 retained in
  deletedCount s1 = deletedCount s2
  /\ freedBytes s1 = freedBytes s2
  /\ finalSizeBytes s1 = finalSizeBytes s2
  /\ failures s1 ≡ₚ failures s2.
Proof.
  intros Hp. cbn.
  rewrite !fold_left_freed_acc, !length_filter_success.
  rewrite (freed_by_perm _ _ Hp), (count_successes_perm _ _ Hp).
  repeat split. by apply List_filter_perm.
Qed.

Lemma createCleanupSummary_order_insensitive_witness :
  let ok := {| artifact := jan; success := true; error := None |} in
  let ko := {| artifact := feb; success := false; error := Some "Failed" |} in
  [ok; ko] ≡ₚ [ko; ok]
  /\ freedBytes (createCleanupSummary (calculateStats [jan; feb]) [ok; ko] [])
     = freedBytes (createCleanupSummary (calculateStats [jan; feb]) [ko; ok] []).
Proof.
  intros ok ko.
  assert ([ok; ko] ≡ₚ [ko; ok]) as Hp by apply Permutation_swap.
  split; [exact Hp|].
  apply (createCleanupSummary_order_insensitive (calculateStats [jan; feb])
           [ok; ko] [ko; ok] [] Hp).
Defined.

(** The bytes of the attempted deletions split into freed and failed. *)
Lemma freed_by_split (results : list DeletionResult) :
  freed_by results
  + sum_sizes (map artifact (List.filter (fun r => negb (success r)) results))
  = sum_sizes (map artifact results).
Proof.
  induction results as [|r results IH]; simpl; [done|].
  destruct (success r); simpl; lia.
Qed.

Lemma List_filter_none {A : Type} (f : A -> bool) (l : list A) :
  (forall a, a ∈ l -> f a = false) -> List.filter f l = [].
Proof.
  induction l as [|x l IH]; intros H; simpl; [done|].
  rewrite (H x) by left. apply IH. intros a Ha. apply H. by right.
Qed.

Lemma List_filter_all {A : Type} (f : A -> bool) (l : list A) :
  (forall a, a ∈ l -> f a = true) -> List.filter f l = l.
Proof.
  induction l as [|x l IH]; intros H; simpl; [done|].
  rewrite (H x) by left. f_equal. apply IH. intros a Ha. apply H. by right.
Qed.

(** With pairwise distinct ids, the artifacts whose id was not selected are
    the artifacts that the selection left over. *)
Lemma retained_is_rest (artifacts sel rest : list Artifact) :
  NoDup (map id artifacts) ->
  artifacts ≡ₚ sel ++ rest ->
  List.filter (fun a => negb (bool_decide (id a ∈ ids sel))) artifacts ≡ₚ rest.
Proof.
  intros Hnd Hp.
  rewrite (List_filter_perm _ _ _ Hp), List.filter_app.
  assert (NoDup (map id sel ++ map id rest)) as Hnd'.
  { assert (map id artifacts ≡ₚ map id sel ++ map id rest) as Hm.
    { rewrite <- map_app. by apply Permutation_map. }
    by rewrite <- Hm. }
  apply NoDup_app in Hnd' as (_ & Hdisj & _).
  rewrite List_filter_none, List_filter_all; [done| |].
  - intros a Ha. case_bool_decide as Hin; [exfalso|done].
    apply elem_of_ids in Hin as (d & Hd & Hid).
    apply (Hdisj (id d)).
    + apply list_elem_of_fmap. by exists d.
    + rewrite Hid. apply list_elem_of_fmap. by exists a.
  - intros a Ha. case_bool_decide as Hin; [done|exfalso].
    apply Hin, elem_of_ids. by exists a.
Qed.

(** * Further properties of the orchestrator *)

Lemma limit_nonneg (config : Config) :
  (0 <= maxSizeGB config)%Q -> 0 <= maxSizeBytes_of config.
Proof.
  intros H. unfold maxSizeBytes_of. apply within_limit_floor.
  unfold limitBytes. apply Qmult_le_0_compat; [exact H|]. by vm_compute.
Qed.

Section Runs.
Context {Server : Type} `{!Octokit Server}.

(** The DELETE calls of [deleteArtifacts]: one per artifact, in order. *)
Lemma deleteArtifacts_requests (config : Config) (artifacts : list Artifact)
    (w : World Server) :
  dryRun config = false ->
  requests (deleteArtifacts config artifacts w).1 = requests w ++ map id artifacts.
Proof.
  intros Hreal. revert w.
  induction artifacts as [|a artifacts IH]; intros w; simpl.
  - by rewrite app_nil_r.
  - unfold deleteArtifact at 1. rewrite Hreal.
    destruct (deleteArtifact_request _ _ _ _ _) as [s' [errorMessage|]];
      match goal with
      | |- context [deleteArtifacts config artifacts ?w1] =>
          specialize (IH w1); destruct (deleteArtifacts config artifacts w1)
      end; simpl in *; rewrite IH; simpl; by rewrite <- app_assoc.
Qed.

(** How a run that ends with a summary went: either nothing had to be done,
    or the selection was not empty and every selected artifact got its
    outcome. *)
Lemma performCleanup_Ok_inv (config : Config) (artifacts : list Artifact)
    (w w' : World Server) (summary : CleanupSummary) :
  performCleanup config artifacts w = (w', Ok summary) ->
  let toDelete :=
    selectArtifactsToDelete artifacts (calculateTotalSize artifacts)
      (maxSizeBytes_of config) in
  let results := cleanupResults config artifacts w in
  (calculateTotalSize artifacts <= maxSizeBytes_of config
   /\ w' = w /\ results = []
   /\ freedBytes summary = 0 /\ deletedCount summary = 0
   /\ finalSizeBytes summary = calculateTotalSize artifacts
   /\ failures summary = [] /\ retained summary = artifacts
   /\ initial summary = calculateStats artifacts)
  \/ (maxSizeBytes_of config < calculateTotalSize artifacts
      /\ toDelete <> []
      /\ deleteArtifacts config toDelete w = (w', results)
      /\ summary
         = createCleanupSummary (calculateStats artifacts) results
             (List.filter (fun a => negb (bool_decide (id a ∈ ids toDelete))) artifacts)).
Proof.
  intros Hrun. cbn zeta. unfold cleanupResults. cbn [totalSizeBytes calculateStats].
  destruct (Z.le_gt_cases (calculateTotalSize artifacts) (maxSizeBytes_of config))
    as [Hle|Hover].
  - left. rewrite performCleanup_within in Hrun by done. injection Hrun as <- <-.
    apply isOverLimit_false in Hle as Hfalse. rewrite Hfalse. by repeat split.
  - right. rewrite performCleanup_over in Hrun by done. cbn zeta in Hrun.
    apply isOverLimit_true in Hover as Htrue. rewrite Htrue. cbn [negb].
    destruct (selectArtifactsToDelete artifacts (calculateTotalSize artifacts)
                (maxSizeBytes_of config)) as [|a toDelete] eqn:E; [done|].
    injection Hrun as <- <-. split; [done|]. split; [done|].
    split; [|done]. apply surjective_pairing.
Qed.

(** The internal error needs a negative limit. *)
Lemma performCleanup_Err_negative_limit (config : Config)
    (artifacts : list Artifact) (w w' : World Server) (message : string) :
  performCleanup config artifacts w = (w', Err message) ->
  artifacts = [] /\ maxSizeBytes_of config < 0.
Proof.
  intros Hrun.
  apply performCleanup_Err_inv in Hrun as (_ & _ & Hover & Hempty).
  apply isOverLimit_true in Hover.
  destruct artifacts as [|a artifacts]; [by split|].
  by destruct (selectArtifactsToDelete_nonempty (a :: artifacts) _ _ Hover).
Qed.

(** With a limit that is not negative, which is all [parseConfig] lets
    through, the internal error cannot occur: every run ends with a
    summary. *)
Theorem performCleanup_never_fails_for_valid_limit (config : Config)
    (artifacts : list Artifact) (w : World Server) :
  (0 <= maxSizeGB config)%Q ->
  exists w' summary, performCleanup config artifacts w = (w', Ok summary).
Proof.
  intros Hlimit. apply limit_nonneg in Hlimit.
  destruct (performCleanup config artifacts w) as [w' [summary|message]] eqn:Hrun;
    [by eauto|].
  apply performCleanup_Err_negative_limit in Hrun as [_ Hneg]. lia.
Qed.

(** The selection of a run, for a limit that is not negative, brings the
    total to the limit. *)
Lemma selection_of_run_suffices (artifacts : list Artifact) (maxSize : Z) :
  0 <= maxSize ->
  calculateTotalSize artifacts
  - sum_sizes (selectArtifactsToDelete artifacts (calculateTotalSize artifacts) maxSize)
  <= maxSize.
Proof.
  intros Hlimit.
  destruct (selectArtifactsToDelete_spec artifacts (calculateTotalSize artifacts) maxSize)
    as (rest & Hsplit & _ & Hstop).
  destruct rest as [|a rest]; [|by apply Hstop].
  rewrite app_nil_r in Hsplit. rewrite <- Hsplit, calculateTotalSize_sum.
  rewrite (sum_sizes_perm _ _ (sortByCreatedDate_perm artifacts)). lia.
Qed.

Lemma finalSizeBytes_createCleanupSummary (initial : ArtifactStats)
    (results : list DeletionResult) (retained : list Artifact) :
  finalSizeBytes (createCleanupSummary initial results retained)
  = totalSizeBytes initial - freed_by results.
Proof. cbn. rewrite fold_left_freed_acc. lia. Qed.

(** In whole bytes: without failures, the final size is within a limit that
    is not negative. *)
Lemma finalSizeBytes_within_limit (config : Config) (artifacts : list Artifact)
    (w w' : World Server) (summary : CleanupSummary) :
  0 <= maxSizeBytes_of config ->
  performCleanup config artifacts w = (w', Ok summary) ->
  failures summary = [] ->
  finalSizeBytes summary <= maxSizeBytes_of config.
Proof.
  intros Hlimit Hrun Hnone.
  apply performCleanup_Ok_inv in Hrun as
    [(Hle & _ & _ & _ & _ & -> & _)|(Hover & Hne & Hdel & ->)]; [done|].
  rewrite finalSizeBytes_createCleanupSummary. cbn [totalSizeBytes calculateStats].
  cbn [failures createCleanupSummary] in Hnone.
  pose proof (freed_by_split (cleanupResults config artifacts w)) as Hsplit.
  rewrite Hnone in Hsplit. simpl in Hsplit. rewrite Z.add_0_r in Hsplit.
  rewrite Hsplit.
  pose proof (deleteArtifacts_artifacts config
                (selectArtifactsToDelete artifacts (calculateTotalSize artifacts)
                   (maxSizeBytes_of config)) w) as Harts.
  rewrite Hdel in Harts. simpl in Harts. rewrite Harts.
  by apply selection_of_run_suffices.
Qed.

(** When no deletion fails and the limit is not negative, the final size
    reported by the run is at or below the limit: [logSummary] reports
    that storage is under the limit. *)
Theorem performCleanup_reaches_limit (config : Config) (artifacts : list Artifact)
    (w w' : World Server) (summary : CleanupSummary) :
  (0 <= maxSizeGB config)%Q ->
  performCleanup config artifacts w = (w', Ok summary) ->
  failures summary = [] ->
  (inject_Z (finalSizeBytes summary) <= limitBytes config)%Q.
Proof.
  intros Hlimit Hrun Hnone. apply limit_nonneg in Hlimit.
  apply within_limit_floor. fold (maxSizeBytes_of config).
  by apply (finalSizeBytes_within_limit config artifacts w w').
Qed.

(** In a dry run nothing is asked of the provider, whatever the outcome of
    the run; a summary then reports no failure and, as freed, the bytes of
    the whole selection. *)
Theorem performCleanup_dryRun_touches_nothing (config : Config)
    (artifacts : list Artifact) (w w' : World Server) (r : Result CleanupSummary) :
  dryRun config = true ->
  performCleanup config artifacts w = (w', r) ->
  w' = w
  /\ forall summary, r = Ok summary ->
       failures summary = []
       /\ freedBytes summary
          = calculateTotalSize
              (selectArtifactsToDelete artifacts (calculateTotalSize artifacts)
                 (maxSizeBytes_of config)).
Proof.
  intros Hdry Hrun. destruct r as [summary|message].
  - apply performCleanup_Ok_inv in Hrun as
      [(Hle & -> & _ & Hfreed & _ & _ & Hfail & _)|(Hover & Hne & Hdel & ->)].
    + split; [done|]. intros ? [= <-]. split; [done|].
      by rewrite Hfreed, selectArtifactsToDelete_within.
    + rewrite deleteArtifacts_dryRun in Hdel by done. injection Hdel as <- Hres.
      split; [done|]. intros ? [= <-]. rewrite <- Hres. clear Hres.
      cbn [failures freedBytes createCleanupSummary].
      generalize (selectArtifactsToDelete artifacts (calculateTotalSize artifacts)
                    (maxSizeBytes_of config)).
      intros l. rewrite fold_left_freed_acc, calculateTotalSize_sum.
      induction l as [|a l [IH1 IH2]]; [by split|]. simpl in *.
      split; [done|]. lia.
  - apply performCleanup_Err_inv in Hrun as (_ & -> & _). by split.
Qed.

(** Outside a dry run, a run asks the provider to delete exactly the selected
    artifacts, each once and oldest first, whatever the answers. *)
Theorem performCleanup_requests_the_selection (config : Config)
    (artifacts : list Artifact) (w w' : World Server) (r : Result CleanupSummary) :
  dryRun config = false ->
  performCleanup config artifacts w = (w', r) ->
  requests w'
  = requests w
    ++ map id (selectArtifactsToDelete artifacts (calculateTotalSize artifacts)
                 (maxSizeBytes_of config)).
Proof.
  intros Hreal Hrun. destruct r as [summary|message].
  - apply performCleanup_Ok_inv in Hrun as
      [(Hle & -> & _)|(Hover & Hne & Hdel & _)].
    + rewrite selectArtifactsToDelete_within by done. by rewrite app_nil_r.
    + rewrite <- (deleteArtifacts_requests config _ w Hreal). by rewrite Hdel.
  - apply performCleanup_Err_inv in Hrun as (_ & -> & _ & ->). by rewrite app_nil_r.
Qed.

Lemma sum_sizes_nonneg (l : list Artifact) :
  Forall (fun a => 0 <= size_in_bytes a) l -> 0 <= sum_sizes l.
Proof. induction 1; simpl; lia. Qed.

Lemma freed_by_bounds (results : list DeletionResult) :
  Forall (fun a => 0 <= size_in_bytes a) (map artifact results) ->
  0 <= freed_by results <= sum_sizes (map artifact results).
Proof.
  induction results as [|r results IH]; simpl; [lia|].
  intros Hall. apply Forall_cons in Hall as [Hr Hall]. specialize (IH Hall).
  destruct (success r); lia.
Qed.

(** When no size is negative, a run frees at most what is stored: the freed
    bytes and the final size both lie between zero and the initial total. *)
Theorem performCleanup_sizes_bounded (config : Config) (artifacts : list Artifact)
    (w w' : World Server) (summary : CleanupSummary) :
  Forall (fun a => 0 <= size_in_bytes a) artifacts ->
  performCleanup config artifacts w = (w', Ok summary) ->
  0 <= freedBytes summary <= calculateTotalSize artifacts
  /\ 0 <= finalSizeBytes summary <= calculateTotalSize artifacts.
Proof.
  intros Hsizes Hrun.
  assert (0 <= calculateTotalSize artifacts) as Htotal.
  { rewrite calculateTotalSize_sum. by apply sum_sizes_nonneg. }
  apply performCleanup_Ok_inv in Hrun as
    [(Hle & _ & _ & -> & _ & -> & _)|(Hover & Hne & Hdel & ->)]; [lia|].
  rewrite finalSizeBytes_createCleanupSummary.
  cbn [freedBytes createCleanupSummary totalSizeBytes calculateStats].
  rewrite fold_left_freed_acc, Z.add_0_l.
  pose proof (deleteArtifacts_artifacts config
                (selectArtifactsToDelete artifacts (calculateTotalSize artifacts)
                   (maxSizeBytes_of config)) w) as Harts.
  rewrite Hdel in Harts. simpl in Harts.
  destruct (selectArtifactsToDelete_spec artifacts (calculateTotalSize artifacts)
              (maxSizeBytes_of config)) as (rest & Hsplit & _).
  assert (Forall (fun a => 0 <= size_in_bytes a)
            (selectArtifactsToDelete artifacts (calculateTotalSize artifacts)
               (maxSizeBytes_of config) ++ rest)) as Hall.
  { rewrite <- Hsplit. by rewrite (sortByCreatedDate_perm artifacts). }
  apply Forall_app in Hall as [Hsel Hrest].
  pose proof (freed_by_bounds (cleanupResults config artifacts w)) as Hfreed.
  rewrite Harts in Hfreed. specialize (Hfreed Hsel).
  assert (calculateTotalSize artifacts
          = sum_sizes (selectArtifactsToDelete artifacts (calculateTotalSize artifacts)
                         (maxSizeBytes_of config)) + sum_sizes rest) as Hsum.
  { rewrite <- sum_sizes_app, <- Hsplit, calculateTotalSize_sum.
    symmetry. apply sum_sizes_perm, sortByCreatedDate_perm. }
  apply sum_sizes_nonneg in Hrest. lia.
Qed.

(** With pairwise distinct ids, the summary accounts for every artifact and
    every byte: the final size is the size of what is retained plus the size
    of what could not be deleted, and deleted, failed and retained artifacts
    add up to the number fetched. *)
Theorem performCleanup_accounts_for_everything (config : Config)
    (artifacts : list Artifact) (w w' : World Server) (summary : CleanupSummary) :
  NoDup (map id artifacts) ->
  performCleanup config artifacts w = (w', Ok summary) ->
  finalSizeBytes summary
  = calculateTotalSize (retained summary)
    + calculateTotalSize (map artifact (failures summary))
  /\ deletedCount summary + Z.of_nat (length (failures summary))
     + Z.of_nat (length (retained summary))
     = totalCount (initial summary).
Proof.
  intros Hnd Hrun.
  apply performCleanup_Ok_inv in Hrun as
    [(Hle & _ & _ & _ & Hcount & Hfinal & Hfail & Hret & Hinit)
    |(Hover & Hne & Hdel & ->)].
  - rewrite Hfinal, Hfail, Hret, Hcount, Hinit. split.
    + change (calculateTotalSize (map artifact [])) with 0. lia.
    + simpl. lia.
  - rewrite finalSizeBytes_createCleanupSummary.
    cbn [deletedCount failures retained initial createCleanupSummary
         totalSizeBytes totalCount calculateStats].
    set (toDelete := selectArtifactsToDelete artifacts (calculateTotalSize artifacts)
                       (maxSizeBytes_of config)) in *.
    set (results := cleanupResults config artifacts w) in *.
    pose proof (deleteArtifacts_artifacts config toDelete w) as Harts.
    rewrite Hdel in Harts. simpl in Harts.
    destruct (selectArtifactsToDelete_spec artifacts (calculateTotalSize artifacts)
                (maxSizeBytes_of config)) as (rest & Hsplit & _).
    fold toDelete in Hsplit.
    assert (artifacts ≡ₚ toDelete ++ rest) as Hperm.
    { rewrite <- Hsplit. symmetry. apply sortByCreatedDate_perm. }
    pose proof (retained_is_rest artifacts toDelete rest Hnd Hperm) as Hret.
    pose proof (freed_by_split results) as Hbytes. rewrite Harts in Hbytes.
    pose proof (length_filter_failure results) as Hlen.
    assert (length results = length toDelete) as Hres.
    { by rewrite <- Harts, length_map. }
    rewrite !calculateTotalSize_sum, length_filter_success.
    rewrite (sum_sizes_perm _ _ Hret), (sum_sizes_perm _ _ Hperm), sum_sizes_app.
    apply Permutation_length in Hret, Hperm. rewrite length_app in Hperm.
    split; lia.
Qed.

(** Every artifact a run keeps was created no earlier than any artifact it
    tried to delete. *)
Theorem performCleanup_retains_the_newest (config : Config)
    (artifacts : list Artifact) (w w' : World Server) (summary : CleanupSummary)
    (outcome : DeletionResult) (kept : Artifact) :
  performCleanup config artifacts w = (w', Ok summary) ->
  outcome ∈ cleanupResults config artifacts w ->
  kept ∈ retained summary ->
  createdTime (artifact outcome) <= createdTime kept.
Proof.
  intros Hrun Hout Hkept.
  apply performCleanup_Ok_inv in Hrun as
    [(_ & _ & Hnone & _)|(Hover & Hne & Hdel & ->)].
  - rewrite Hnone in Hout. by apply elem_of_nil in Hout.
  - pose proof (deleteArtifacts_artifacts config
                  (selectArtifactsToDelete artifacts (calculateTotalSize artifacts)
                     (maxSizeBytes_of config)) w) as Harts.
    rewrite Hdel in Harts. simpl in Harts.
    cbn [retained createCleanupSummary] in Hkept.
    apply list_elem_of_In, filter_In in Hkept as [Hin Hid].
    apply list_elem_of_In in Hin.
    destruct (selectArtifactsToDelete_spec artifacts (calculateTotalSize artifacts)
                (maxSizeBytes_of config)) as (rest & Hsplit & _).
    apply (selection_before_rest artifacts rest (calculateTotalSize artifacts)
             (maxSizeBytes_of config)); [done| |].
    + rewrite <- Harts. apply list_elem_of_fmap. by exists outcome.
    + rewrite <- (sortByCreatedDate_perm artifacts), Hsplit in Hin.
      apply elem_of_app in Hin as [Hsel|Hrest]; [|done].
      case_bool_decide as Hnot; [done|].
      exfalso. apply Hnot, elem_of_ids. by exists kept.
Qed.

End Runs.

Lemma performCleanup_never_fails_for_valid_limit_witness :
  (0 <= maxSizeGB (configWithLimit 250))%Q
  /\ exists w' summary,
       @performCleanup unit refusing (configWithLimit 250) [jan; feb; mar] untouched
       = (w', Ok summary).
Proof.
  assert (0 <= maxSizeGB (configWithLimit 250))%Q as H by (by vm_compute).
  split; [exact H|].
  eapply (@performCleanup_never_fails_for_valid_limit unit refusing
           (configWithLimit 250) [jan; feb; mar] untouched H).
Defined.

Lemma performCleanup_reaches_limit_witness :
  exists w' summary,
    (0 <= maxSizeGB (configWithLimit 250))%Q
    /\ @performCleanup unit reliable (configWithLimit 250) [jan; feb; mar] untouched
       = (w', Ok summary)
    /\ failures summary = []
    /\ (inject_Z (finalSizeBytes summary) <= limitBytes (configWithLimit 250))%Q.
Proof.
  eexists _, _.
  assert (0 <= maxSizeGB (configWithLimit 250))%Q as H by (by vm_compute).
  split; [exact H|]. split; [vm_compute; reflexivity|]. split; [reflexivity|].
  eapply (@performCleanup_reaches_limit unit reliable (configWithLimit 250)
           [jan; feb; mar] untouched _ _ H); [vm_compute; reflexivity|reflexivity].
Defined.

Lemma performCleanup_dryRun_touches_nothing_witness :
  exists w' r,
    dryRun (configDryRun 150) = true
    /\ @performCleanup unit refusing (configDryRun 150) [mar; jan; feb] untouched = (w', r)
    /\ w' = untouched.
Proof.
  eexists _, _. split; [reflexivity|]. split; [vm_compute; reflexivity|].
  eapply (@performCleanup_dryRun_touches_nothing unit refusing (configDryRun 150)
            [mar; jan; feb] untouched); [reflexivity|vm_compute; reflexivity].
Defined.

Lemma performCleanup_requests_the_selection_witness :
  exists w' r,
    dryRun (configWithLimit 150) = false
    /\ @performCleanup unit refusing (configWithLimit 150) [mar; jan; feb] untouched
       = (w', r)
    /\ requests w' = requests untouched ++ map id [jan; feb].
Proof.
  eexists _, _. split; [reflexivity|]. split; [vm_compute; reflexivity|].
  eapply (@performCleanup_requests_the_selection unit refusing (configWithLimit 150)
           [mar; jan; feb] untouched _ _ eq_refl). vm_compute. reflexivity.
Defined.

Lemma performCleanup_sizes_bounded_witness :
  exists w' summary,
    Forall (fun a => 0 <= size_in_bytes a) [jan; feb; mar]
    /\ @performCleanup unit reliable (configWithLimit 250) [jan; feb; mar] untouched
       = (w', Ok summary)
    /\ 0 <= finalSizeBytes summary <= calculateTotalSize [jan; feb; mar].
Proof.
  eexists _, _.
  assert (Forall (fun a => 0 <= size_in_bytes a) [jan; feb; mar]) as H.
  { repeat constructor; by vm_compute. }
  split; [exact H|]. split; [vm_compute; reflexivity|].
  eapply (@performCleanup_sizes_bounded unit reliable (configWithLimit 250)
            [jan; feb; mar] untouched _ _ H). vm_compute. reflexivity.
Defined.

Lemma performCleanup_accounts_for_everything_witness :
  exists w' summary,
    NoDup (map id [jan; feb; mar])
    /\ @performCleanup unit refusing (configWithLimit 250) [jan; feb; mar] untouched
       = (w', Ok summary)
    /\ finalSizeBytes summary
       = calculateTotalSize (retained summary)
         + calculateTotalSize (map artifact (failures summary)).
Proof.
  eexists _, _.
  assert (NoDup (map id [jan; feb; mar])) as H.
  { apply (bool_decide_unpack _). by vm_compute. }
  split; [exact H|]. split; [vm_compute; reflexivity|].
  eapply (@performCleanup_accounts_for_everything unit refusing (configWithLimit 250)
            [jan; feb; mar] untouched _ _ H). vm_compute. reflexivity.
Defined.

Lemma performCleanup_retains_the_newest_witness :
  exists w' summary outcome,
    @performCleanup unit reliable (configWithLimit 250) [mar; jan; feb] untouched
    = (w', Ok summary)
    /\ outcome ∈ @cleanupResults unit reliable (configWithLimit 250) [mar; jan; feb] untouched
    /\ mar ∈ retained summary
    /\ createdTime (artifact outcome) <= createdTime mar.
Proof.
  eexists _, _, _.
  split; [vm_compute; reflexivity|]. split; [left|]. split; [left|].
  eapply (@performCleanup_retains_the_newest unit reliable (configWithLimit 250)
            [mar; jan; feb] untouched); [vm_compute; reflexivity|left|left].
Defined.

(** * Rendering *)

Example parseConfig_test :
  @parseConfig digitsOnly workflowRun
  = Ok {| owner := "intercreate"; repo := "artifact-eviction-action";
          maxSizeGB := 20; token := "ghs_secret"; dryRun := false |}.
Proof. reflexivity. Qed.

Example formatGB_test :
  formatGB 0 = "0.00" /\ formatGB 1 = "1.00" /\ formatGB (3 # 2) = "1.50"
  /\ formatGB (1234 # 1000) = "1.23" /\ formatGB (1999 # 1000) = "2.00".
Proof. repeat split. Qed.

Lemma digitValue_digitChar (d : Z) : 0 <= d <= 9 -> digitValue (digitChar d) = d.
Proof.
  intros Hd. unfold digitValue, digitChar.
  rewrite nat_ascii_embedding by lia. lia.
Qed.

Lemma digitsValue_acc (l : list ascii) (v : Z) :
  fold_left (fun v c => 10 * v + digitValue c) l v
  = v * 10 ^ Z.of_nat (length l) + digitsValue l.
Proof.
  unfold digitsValue. revert v. induction l as [|c l IH]; intros v.
  - simpl. lia.
  - cbn [fold_left length]. rewrite IH, (IH (10 * 0 + digitValue c)).
    rewrite Nat2Z.inj_succ, Z.pow_succ_r by lia. lia.
Qed.

Lemma digitsValue_app (l1 l2 : list ascii) :
  digitsValue (l1 ++ l2) = digitsValue l1 * 10 ^ Z.of_nat (length l2) + digitsValue l2.
Proof. unfold digitsValue at 1. rewrite fold_left_app. apply digitsValue_acc. Qed.

Lemma digitsValue_cons (c : ascii) (l : list ascii) :
  digitsValue (c :: l) = digitValue c * 10 ^ Z.of_nat (length l) + digitsValue l.
Proof. unfold digitsValue at 1. cbn [fold_left]. rewrite digitsValue_acc. lia. Qed.

Lemma decimal_fuel_spec (fuel : nat) (n : Z) (acc : list ascii) :
  0 <= n < 2 ^ Z.of_nat (S fuel) ->
  exists ds,
    decimal_fuel (S fuel) n acc = ds ++ acc
    /\ ds <> [] /\ Forall isDigit ds /\ digitsValue ds = n
    /\ (n <> 0 -> exists d rest, ds = d :: rest /\ digitValue d <> 0).
Proof.
  revert n acc. induction fuel as [|fuel IH]; intros n acc Hn.
  - assert (n = 0 \/ n = 1) as [-> | ->] by (change (2 ^ Z.of_nat 1) with 2 in Hn; lia).
    + exists ["0"%char]. repeat split; try done.
      repeat constructor; unfold isDigit; by vm_compute.
    + exists ["1"%char]. repeat split; try done.
      * repeat constructor; unfold isDigit; by vm_compute.
      * intros _. by exists "1"%char, [].
  - cbn [decimal_fuel].
    pose proof (Z.mod_pos_bound n 10 ltac:(lia)) as Hmod.
    pose proof (Z.div_mod n 10 ltac:(lia)) as Hdm.
    assert (isDigit (digitChar (n mod 10))) as Hdig.
    { unfold isDigit. rewrite digitValue_digitChar; lia. }
    destruct (Z.eqb_spec (n / 10) 0) as [Hz|Hnz].
    + exists [digitChar (n mod 10)]. split; [done|]. split; [done|].
      split; [constructor; [exact Hdig|constructor]|]. split.
      * rewrite digitsValue_cons, digitValue_digitChar by lia. cbn [length].
        change (digitsValue []) with 0. change (10 ^ Z.of_nat 0) with 1. lia.
      * intros Hn0. exists (digitChar (n mod 10)), []. split; [done|].
        rewrite digitValue_digitChar by lia. lia.
    + destruct (IH (n / 10) (digitChar (n mod 10) :: acc))
        as (ds & Hds & Hne & Hall & Hval & Hlead).
      { rewrite Nat2Z.inj_succ, Z.pow_succ_r in Hn by lia.
        split; [apply Z.div_pos; lia|].
        apply Z.div_lt_upper_bound; lia. }
      cbn [decimal_fuel] in Hds. rewrite Hds.
      exists (ds ++ [digitChar (n mod 10)]). split; [by rewrite <- app_assoc|].
      split; [by destruct ds|]. split.
      * apply Forall_app. split; [done|constructor; [exact Hdig|constructor]].
      * split.
        -- rewrite digitsValue_app, Hval. simpl length.
           change (digitsValue [digitChar (n mod 10)])
             with (10 * 0 + digitValue (digitChar (n mod 10))).
           rewrite digitValue_digitChar by lia.
           change (10 ^ Z.of_nat 1) with 10. lia.
        -- intros _. destruct (Hlead Hnz) as (d & rest & -> & Hd).
           by exists d, (rest ++ [digitChar (n mod 10)]).
Qed.

Lemma decimalDigits_spec (n : Z) :
  0 <= n ->
  decimalDigits n <> [] /\ Forall isDigit (decimalDigits n)
  /\ digitsValue (decimalDigits n) = n
  /\ (n <> 0 -> exists d rest, decimalDigits n = d :: rest /\ digitValue d <> 0).
Proof.
  intros Hn. unfold decimalDigits.
  destruct (decimal_fuel_spec (Z.to_nat (Z.log2 n)) n []) as (ds & Hds & H).
  { split; [done|]. rewrite Nat2Z.inj_succ, Z2Nat.id by apply Z.log2_nonneg.
    destruct (Z.eq_dec n 0) as [->|Hnz]; [by vm_compute|].
    apply Z.log2_spec. lia. }
  rewrite app_nil_r in Hds. by rewrite Hds.
Qed.

Lemma digitsValue_leading_zeros (j : nat) (l : list ascii) :
  digitsValue (replicate j "0"%char ++ l) = digitsValue l.
Proof.
  induction j as [|j IH]; [done|].
  cbn [replicate app]. rewrite digitsValue_cons, IH.
  change (digitValue "0") with 0. lia.
Qed.

Lemma Forall_isDigit_zeros (j : nat) : Forall isDigit (replicate j "0"%char).
Proof. apply Forall_replicate. unfold isDigit. by vm_compute. Qed.

Lemma Qfloor_nonneg_half (x : Q) : 0 <= Qfloor (Qabs x * 100 + (1 # 2)).
Proof.
  change 0 with (Qfloor 0). apply Qfloor_resp_le.
  pose proof (Qabs_nonneg x). lra.
Qed.

Lemma round_half_up (y : Q) :
  (inject_Z (Qfloor (y + (1 # 2))) - (1 # 2) <= y
   /\ y < inject_Z (Qfloor (y + (1 # 2))) + (1 # 2))%Q.
Proof.
  pose proof (Qfloor_le (y + (1 # 2))) as Hlo.
  pose proof (Qlt_floor (y + (1 # 2))) as Hhi.
  rewrite inject_Z_plus in Hhi. change (inject_Z 1) with 1%Q in Hhi.
  split; lra.
Qed.


(** * Configuration *)

Lemma String_split_nonempty (sep : ascii) (s : string) : String_split sep s <> [].
Proof.
  destruct s as [|c s]; simpl; [done|].
  destruct (Ascii.eqb c sep); [done|]. by destruct (String_split sep s).
Qed.

Lemma String_join_cons (sep : ascii) (part : string) (parts : list string) :
  parts <> [] ->
  String_join sep (part :: parts) = part +:+ String sep (String_join sep parts).
Proof. by destruct parts. Qed.

(** Splitting and joining again gives the string back. *)
Lemma String_split_join (sep : ascii) (s : string) :
  String_join sep (String_split sep s) = s.
Proof.
  induction s as [|c s IH]; [done|]. cbn [String_split].
  destruct (Ascii.eqb_spec c sep) as [->|Hne].
  - rewrite String_join_cons by apply String_split_nonempty. simpl. by rewrite IH.
  - pose proof (String_split_nonempty sep s) as Hnil.
    destruct (String_split sep s) as [|part parts]; [done|].
    destruct parts as [|part' parts].
    + simpl in *. by rewrite IH.
    + rewrite String_join_cons by done. rewrite String_join_cons in IH by done.
      by rewrite <- IH.
Qed.

(** No part contains the separator. *)
Lemma String_split_parts (sep : ascii) (s : string) :
  Forall (fun part => ~ occurs sep part) (String_split sep s).
Proof.
  induction s as [|c s IH]; cbn [String_split].
  - constructor; [simpl; tauto|constructor].
  - destruct (Ascii.eqb_spec c sep) as [->|Hne].
    + constructor; [simpl; tauto|done].
    + pose proof (String_split_nonempty sep s) as Hnil.
      destruct (String_split sep s) as [|part parts]; [done|].
      apply Forall_cons in IH as [Hpart Hparts].
      constructor; [|done]. simpl. intros [Hc|Hin]; [done|by apply Hpart].
Qed.

(** A part free of the separator is split off whole. *)
Lemma String_split_app (sep : ascii) (part s : string) :
  ~ occurs sep part ->
  String_split sep (part +:+ String sep s) = part :: String_split sep s.
Proof.
  induction part as [|c part IH]; intros Hfree.
  - simpl. by rewrite Ascii.eqb_refl.
  - simpl in Hfree.
    change (String c part +:+ String sep s) with (String c (part +:+ String sep s)).
    cbn [String_split].
    destruct (Ascii.eqb_spec c sep) as [->|Hne]; [by destruct Hfree; left|].
    rewrite IH; [done|]. intros Hin. apply Hfree. by right.
Qed.

Lemma String_split_whole (sep : ascii) (part : string) :
  ~ occurs sep part -> String_split sep part = [part].
Proof.
  induction part as [|c part IH]; intros Hfree; [done|].
  simpl in Hfree. cbn [String_split].
  destruct (Ascii.eqb_spec c sep) as [->|Hne]; [by destruct Hfree; left|].
  rewrite IH; [done|]. intros Hin. apply Hfree. by right.
Qed.

Section Configuration.
Context `{!Runtime}.

Lemma parseConfig_Ok_inv (e : Environment) (config : Config) :
  parseConfig e = Ok config ->
  orElse (getInput e "token") (processEnv e "GITHUB_TOKEN") = Some (token config)
  /\ token config <> ""
  /\ (getInput e "token" <> "" -> token config = getInput e "token")
  /\ (getInput e "token" = "" -> processEnv e "GITHUB_TOKEN" = Some (token config))
  /\ owner config <> "" /\ repo config <> ""
  /\ ~ occurs "/" (owner config) /\ ~ occurs "/" (repo config)
  /\ (exists rest,
        processEnv e "GITHUB_REPOSITORY"
        = Some (String_join "/" (owner config :: repo config :: rest)))
  /\ parseFloat (getInput e "max_size_gb") = Some (maxSizeGB config)
  /\ (0 < maxSizeGB config)%Q
  /\ (dryRun config = true <-> getInput e "dry_run" = "true").
Proof.
  unfold parseConfig. cbn zeta.
  destruct (orElse (getInput e "token") (processEnv e "GITHUB_TOKEN"))
    as [[|c tok]|] eqn:Htok; try done.
  destruct (processEnv e "GITHUB_REPOSITORY") as [[|c2 rep]|] eqn:Hrep; try done.
  pose proof (String_split_join "/" (String c2 rep)) as Hjoin.
  pose proof (String_split_parts "/" (String c2 rep)) as Hparts.
  destruct (String_split "/" (String c2 rep)) as [|o [|r rest]]; try done.
  { cbn. by destruct o. }
  cbn [lookup list_lookup]. destruct o as [|co o]; [done|].
  destruct r as [|cr r]; [done|].
  destruct (parseFloat (getInput e "max_size_gb")) as [q|] eqn:Hq; [|done].
  destruct (Qle_bool q 0) eqn:Hpos; [done|].
  intros [= <-]. cbn [token owner repo maxSizeGB dryRun].
  apply Forall_cons in Hparts as [Ho Hparts].
  apply Forall_cons in Hparts as [Hr _].
  split; [done|]. unfold orElse in Htok.
  split; [done|]. split.
  { intros Hin. destruct (getInput e "token") as [|a t]; [done|]. congruence. }
  split.
  { intros Hin. by rewrite Hin in Htok. }
  split; [done|]. split; [done|]. split; [done|]. split; [done|].
  split; [exists rest; by rewrite Hjoin|]. split; [done|]. split.
  - apply Qnot_le_lt. intros Hle. apply Qle_bool_iff in Hle. congruence.
  - apply String.eqb_eq.
Qed.

(** What an accepted configuration guarantees.  The token is not empty, and
    is the [token] input unless that is empty, in which case it is
    [GITHUB_TOKEN].  Owner and repository name are not empty, contain no
    slash, and are the first two slash-separated parts of
    [GITHUB_REPOSITORY]; further parts are ignored.  The limit is the number
    read from [max_size_gb] and is positive.  The run is a dry run exactly
    when the [dry_run] input is the text [true]. *)
Theorem parseConfig_accepted (e : Environment) (config : Config) :
  parseConfig e = Ok config ->
  token config <> ""
  /\ (getInput e "token" <> "" -> token config = getInput e "token")
  /\ (getInput e "token" = "" -> processEnv e "GITHUB_TOKEN" = Some (token config))
  /\ owner config <> "" /\ repo config <> ""
  /\ ~ occurs "/" (owner config) /\ ~ occurs "/" (repo config)
  /\ (exists rest,
        processEnv e "GITHUB_REPOSITORY"
        = Some (String_join "/" (owner config :: repo config :: rest)))
  /\ parseFloat (getInput e "max_size_gb") = Some (maxSizeGB config)
  /\ (0 < maxSizeGB config)%Q
  /\ (dryRun config = true <-> getInput e "dry_run" = "true").
Proof. intros Hok. by apply parseConfig_Ok_inv in Hok as (_ & Hall). Qed.

(** Which surroundings are accepted: there is a token, [GITHUB_REPOSITORY]
    starts with a non-empty owner and a non-empty name separated by a slash,
    and [max_size_gb] reads as a positive number.  Everything else is
    rejected. *)
Theorem parseConfig_accepts_exactly (e : Environment) :
  (exists config, parseConfig e = Ok config)
  <-> (exists token, orElse (getInput e "token") (processEnv e "GITHUB_TOKEN") = Some token
                     /\ token <> "")
      /\ (exists owner repo rest,
            processEnv e "GITHUB_REPOSITORY"
            = Some (String_join "/" (owner :: repo :: rest))
            /\ owner <> "" /\ repo <> ""
            /\ ~ occurs "/" owner /\ ~ occurs "/" repo)
      /\ (exists q, parseFloat (getInput e "max_size_gb") = Some q /\ (0 < q)%Q).
Proof.
  split.
  - intros [config Hok].
    apply parseConfig_Ok_inv in Hok
      as (Htoken & Hne & _ & _ & Ho & Hr & Hos & Hrs & [rest Hrep] & Hq & Hpos & _).
    split; [by exists (token config)|]. split; [|by exists (maxSizeGB config)].
    by exists (owner config), (repo config), rest.
  - intros ((tok & Htok & Hne) & (o & r & rest & Hrep & Ho & Hr & Hos & Hrs)
            & (q & Hq & Hpos)).
    unfold parseConfig. cbn zeta. rewrite Htok, Hrep, Hq.
    destruct tok as [|c tok]; [done|].
    assert (exists rest', String_split "/" (String_join "/" (o :: r :: rest))
                          = o :: r :: rest') as [rest' Hsplit].
    { rewrite String_join_cons by done. rewrite String_split_app by done.
      destruct rest as [|x rest].
      - exists []. by rewrite String_split_whole.
      - rewrite String_join_cons by done. rewrite String_split_app by done.
        by eexists. }
    destruct (String_join "/" (o :: r :: rest)) as [|c2 rep] eqn:Hj.
    { destruct o; [done|]. rewrite String_join_cons in Hj by done. done. }
    rewrite Hsplit. cbn [lookup list_lookup].
    destruct o as [|co o]; [done|]. destruct r as [|cr r]; [done|].
    destruct (Qle_bool q 0) eqn:Hle; [|by eexists].
    apply Qle_bool_iff in Hle. by apply Qlt_not_le in Hpos.
Qed.

End Configuration.

Lemma parseConfig_accepted_witness :
  exists config,
    @parseConfig digitsOnly workflowRun = Ok config
    /\ token config = "ghs_secret" /\ (0 < maxSizeGB config)%Q.
Proof.
  eexists. split; [reflexivity|]. split; [reflexivity|].
  eapply (@parseConfig_accepted digitsOnly workflowRun). reflexivity.
Defined.

(** * The whole run *)

Section MainFacts.
Context {Server : Type} `{!Octokit Server} `{!OctokitList Server} `{!Runtime}.

Lemma fetchAllArtifacts_requests (config : Config) (w : World Server) :
  requests (fetchAllArtifacts config w).1 = requests w.
Proof.
  unfold fetchAllArtifacts. by destruct (listArtifacts_request _ _ _ _).
Qed.



End MainFacts.



Lemma count_successes_zero (results : list DeletionResult) :
  count_successes results = O <-> Forall (fun r => success r = false) results.
Proof.
  induction results as [|r results IH]; simpl; [by split|].
  destruct (success r) eqn:E.
  - split; [done|]. intros Hall. apply Forall_cons in Hall as [Hr _]. congruence.
  - rewrite IH. split; [by constructor|]. intros Hall. by apply Forall_cons in Hall as [_ Hall].
Qed.

Section JobSummaryFacts.
Context {Server : Type} `{!Octokit Server}.

(** What the job summary says after a run with a limit that is not negative.
    Its closing text is the one about storage already under the limit exactly
    when no deletion was attempted, and the one about no artifact deleted
    exactly when deletions were attempted and all of them failed.  When no
    deletion failed, the final size is shown with the check mark. *)
Theorem writeJobSummary_tells_what_happened (config : Config)
    (artifacts : list Artifact) (w w' : World Server) (summary : CleanupSummary) :
  (0 <= maxSizeGB config)%Q ->
  performCleanup config artifacts w = (w', Ok summary) ->
  let wasOverLimit :=
    isOverLimit (totalSizeBytes (calculateStats artifacts)) (maxSizeBytes_of config) in
  let results := cleanupResults config artifacts w in
  let page := writeJobSummary summary config wasOverLimit in
  (raw page = "Storage was already under the limit. No cleanup needed."
   <-> results = [])
  /\ (raw page = "Storage was over limit but no artifacts could be deleted."
      <-> results <> [] /\ Forall (fun r => success r = false) results)
  /\ (failures summary = [] ->
      table page !! 5%nat
      = Some ["Final Size"; "✅ " +:+ formatGB (finalSizeGB summary) +:+ " GB"]).
Proof.
  intros Hlimit Hrun. cbn zeta.
  assert (failures summary = [] ->
          (inject_Z (finalSizeBytes summary) <= limitBytes config)%Q) as Hreach.
  { intros Hnone. apply within_limit_floor. fold (maxSizeBytes_of config).
    apply (finalSizeBytes_within_limit config artifacts w w'); [|done|done].
    by apply limit_nonneg. }
  assert (deletedCount summary
          = Z.of_nat (count_successes (cleanupResults config artifacts w))) as Hcount.
  { apply performCleanup_Ok_inv in Hrun as
      [(_ & _ & -> & _ & -> & _)|(_ & _ & _ & ->)]; [done|].
    cbn. by rewrite length_filter_success. }
  assert (isOverLimit (totalSizeBytes (calculateStats artifacts)) (maxSizeBytes_of config)
          = true <-> cleanupResults config artifacts w <> []) as Hover.
  { cbn [totalSizeBytes calculateStats].
    apply performCleanup_Ok_inv in Hrun as
      [(Hle & _ & Hnone & _)|(Hover & Hne & Hdel & _)].
    - rewrite Hnone. apply isOverLimit_false in Hle. rewrite Hle. by split.
    - apply isOverLimit_true in Hover as Htrue. rewrite Htrue. split; [|done].
      intros _ Hnil.
      pose proof (deleteArtifacts_artifacts config
                    (selectArtifactsToDelete artifacts (calculateTotalSize artifacts)
                       (maxSizeBytes_of config)) w) as Harts.
      rewrite Hdel in Harts. simpl in Harts. rewrite Hnil in Harts.
      by symmetry in Harts. }
  unfold writeJobSummary. cbn [raw table].
  destruct (isOverLimit (totalSizeBytes (calculateStats artifacts))
              (maxSizeBytes_of config)) eqn:Hw.
  - assert (cleanupResults config artifacts w <> []) as Hne by (by apply Hover).
    rewrite Hcount.
    destruct (Z.gtb_spec
                (Z.of_nat (count_successes (cleanupResults config artifacts w))) 0)
      as [Hsome|Hzero].
    + split; [split; [done|by intros ?]|]. split.
      * split; [done|]. intros [_ Hall]. apply count_successes_zero in Hall. lia.
      * intros Hnone. apply Hreach, Qle_bool_iff in Hnone. by rewrite Hnone.
    + split; [split; [done|by intros ?]|]. split.
      * split; [|done]. intros _. split; [done|].
        apply count_successes_zero. lia.
      * intros Hnone. apply Hreach, Qle_bool_iff in Hnone. by rewrite Hnone.
  - assert (cleanupResults config artifacts w = []) as Hnil.
    { destruct (cleanupResults config artifacts w) eqn:E; [done|].
      assert (true = false); [|done]. symmetry. by apply Hover. }
    split; [by split|]. split.
    + split; [done|]. by intros [? _].
    + intros Hnone. apply Hreach, Qle_bool_iff in Hnone. by rewrite Hnone.
Qed.

End JobSummaryFacts.

Lemma writeJobSummary_tells_what_happened_witness :
  exists w' summary,
    (0 <= maxSizeGB (configWithLimit 250))%Q
    /\ @performCleanup unit refusing (configWithLimit 250) [jan; feb; mar] untouched
       = (w', Ok summary)
    /\ raw (writeJobSummary summary (configWithLimit 250) true)
       = "Storage was over limit but no artifacts could be deleted.".
Proof.
  eexists _, _.
  assert (0 <= maxSizeGB (configWithLimit 250))%Q as H by (by vm_compute).
  split; [exact H|]. split; [vm_compute; reflexivity|].
  eapply (@writeJobSummary_tells_what_happened unit refusing (configWithLimit 250)
            [jan; feb; mar] untouched _ _ H); [vm_compute; reflexivity|].
  split; [discriminate|]. repeat constructor.
Defined.
